(** * Page interaction controller of the Nilesh Construction site

    A shallow embedding of [js/script.js]: field validation, the simulated
    form submission, the project filter, the FAQ accordion, the scroll
    reveal, the mobile navigation and the highlighted menu entry, each
    with the part of the page it reads and writes as an explicit state,
    and the timers it arms as an explicit queue.

    Conventions.
    - A JavaScript string is a [string]; one [ascii] stands for one code
      unit, so only code units below 256 are represented.
    - A missing element ([querySelector] or [getElementById] answering
      [null]) is [None]; an unset inline style property is [None].
    - A closure handed to [setTimeout] is a constructor of a small type of
      callbacks, kept in a queue with the time at which it is due. *)

From Stdlib Require Import Bool Arith List String Ascii ZArith QArith Lia.
Import ListNotations.

Set Implicit Arguments.

Close Scope Q_scope.
Local Open Scope nat_scope.
Local Open Scope string_scope.
Local Open Scope list_scope.

(* ================================================================== *)
(** * Part I: the program *)
(* ================================================================== *)

(** ** JavaScript strings *)

Module Js.

Definition chars (s : string) : list ascii := list_ascii_of_string s.
Definition str (l : list ascii) : string := string_of_list_ascii l.

(** [\s] of a regular expression, which is also what [trim] strips:
    TAB, LF, VT, FF, CR, SPACE and NBSP (the white space and line
    terminators below 256). *)
Definition is_space (c : ascii) : bool :=
  let n := nat_of_ascii c in
  ((9 <=? n)%nat && (n <=? 13)%nat) || (n =? 32)%nat || (n =? 160)%nat.

(** [\d]: the ten ASCII digits. *)
Definition is_digit (c : ascii) : bool :=
  let n := nat_of_ascii c in
  (48 <=? n)%nat && (n <=? 57)%nat.

Fixpoint trimStart (l : list ascii) : list ascii :=
  match l with
  | c :: l' => if is_space c then trimStart l' else l
  | [] => []
  end.

Definition trimEnd (l : list ascii) : list ascii :=
  rev (trimStart (rev l)).

(** [String.prototype.trim] *)
Definition trim (s : string) : string :=
  str (trimEnd (trimStart (chars s))).

(** [s.split(' ')]: the pieces between single spaces; an empty piece
    for each space that starts the string, ends it or follows another
    space, and [['']] for the empty string. *)
Fixpoint split_space (s : string) : list string :=
  match s with
  | EmptyString => [EmptyString]
  | String c s' =>
      if Ascii.eqb c " "%char then EmptyString :: split_space s'
      else match split_space s' with
           | piece :: rest => String c piece :: rest
           | [] => [String c EmptyString]
           end
  end.

(** [Array.prototype.includes] on an array of strings *)
Definition includes (l : list string) (x : string) : bool :=
  existsb (String.eqb x) l.

End Js.

(** ** Regular expressions

    The two patterns of the script use character classes, concatenation,
    [+] and a counted repetition, all between [^] and [$]; [test] on such
    a pattern asks whether the whole string belongs to its language. *)

Module Regex.

(** An item of a bracketed class. *)
Inductive atom : Type :=
| Lit (c : ascii)      (* a literal or escaped character *)
| Space                (* \s *)
| Digit.               (* \d *)

Definition atom_has (a : atom) (c : ascii) : bool :=
  match a with
  | Lit x => Ascii.eqb x c
  | Space => Js.is_space c
  | Digit => Js.is_digit c
  end.

Inductive regex : Type :=
| Void                              (* matches nothing *)
| Eps                               (* the empty string *)
| Chr (c : ascii)                   (* one given character *)
| OneOf (items : list atom)         (* [...] *)
| NoneOf (items : list atom)        (* [^...] *)
| Cat (r1 r2 : regex)
| Alt (r1 r2 : regex)
| Star (r : regex).

(** [r+] *)
Definition Plus (r : regex) : regex := Cat r (Star r).

(** [r?] *)
Definition Opt (r : regex) : regex := Alt Eps r.

Fixpoint power (r : regex) (n : nat) (tail : regex) : regex :=
  match n with
  | O => tail
  | S n' => Cat r (power r n' tail)
  end.

(** [r{lo,hi}] *)
Definition Rep (r : regex) (lo hi : nat) : regex :=
  power r lo (power (Opt r) (hi - lo) Eps).

Definition class_has (items : list atom) (c : ascii) : bool :=
  existsb (fun a => atom_has a c) items.

Fixpoint nullable (r : regex) : bool :=
  match r with
  | Void => false
  | Eps => true
  | Chr _ => false
  | OneOf _ => false
  | NoneOf _ => false
  | Cat r1 r2 => nullable r1 && nullable r2
  | Alt r1 r2 => nullable r1 || nullable r2
  | Star _ => true
  end.

(** What is left of [r] once [c] has been read. *)
Fixpoint deriv (c : ascii) (r : regex) : regex :=
  match r with
  | Void => Void
  | Eps => Void
  | Chr x => if Ascii.eqb x c then Eps else Void
  | OneOf items => if class_has items c then Eps else Void
  | NoneOf items => if class_has items c then Void else Eps
  | Cat r1 r2 =>
      if nullable r1
      then Alt (Cat (deriv c r1) r2) (deriv c r2)
      else Cat (deriv c r1) r2
  | Alt r1 r2 => Alt (deriv c r1) (deriv c r2)
  | Star r1 => Cat (deriv c r1) (Star r1)
  end.

Fixpoint accepts (r : regex) (l : list ascii) : bool :=
  match l with
  | [] => nullable r
  | c :: l' => accepts (deriv c r) l'
  end.

(** [/^r$/.test(s)] *)
Definition test (r : regex) (s : string) : bool :=
  accepts r (Js.chars s).

(** The language of a pattern, as a relation. *)
Inductive matches : regex -> list ascii -> Prop :=
| MEps : matches Eps []
| MChr c : matches (Chr c) [c]
| MOneOf items c : class_has items c = true -> matches (OneOf items) [c]
| MNoneOf items c : class_has items c = false -> matches (NoneOf items) [c]
| MCat r1 r2 l1 l2 :
    matches r1 l1 -> matches r2 l2 -> matches (Cat r1 r2) (l1 ++ l2)
| MAltL r1 r2 l : matches r1 l -> matches (Alt r1 r2) l
| MAltR r1 r2 l : matches r2 l -> matches (Alt r1 r2) l
| MStar0 r : matches (Star r) []
| MStarS r l1 l2 :
    matches r l1 -> matches (Star r) l2 -> matches (Star r) (l1 ++ l2).

(** [r] matches exactly the one-character strings whose character
    satisfies [P]. *)
Definition one_of (r : regex) (P : ascii -> bool) : Prop :=
  forall l, matches r l <-> exists c, l = [c] /\ P c = true.

End Regex.

(** ** Timers

    [setTimeout] puts a callback in a queue ordered by due time, a new
    entry behind those due at the same time. No callback of the script
    arms a timer, so letting time pass runs the entries that have come
    due, in queue order, and keeps the others. *)

Module Timers.

Section Queue.
Variable callback : Type.

Record timer : Type := Timer { due : nat; run : callback }.

Fixpoint setTimeout (t : timer) (q : list timer) : list timer :=
  match q with
  | [] => [t]
  | u :: q' => if (due u <=? due t)%nat then u :: setTimeout t q'
               else t :: q
  end.

Definition expired (now : nat) (q : list timer) : list timer :=
  filter (fun t => (due t <=? now)%nat) q.

Definition pending (now : nat) (q : list timer) : list timer :=
  filter (fun t => negb (due t <=? now)%nat) q.
End Queue.

End Timers.

(** ** The contact form *)

Module Form.
Import Timers.

(** An [input], [textarea] or [select] of the form. [errorElement] is
    what [field.parentElement.querySelector('.error-message')] answers:
    the identity of an element of the page, the same for two fields
    that share it, or nothing. *)
Record Field : Type := mkField {
  required : bool;
  type : string;
  value : string;
  defaultValue : string;
  errorElement : option nat
}.

(** The element with id [formMessage]. *)
Record Region : Type := mkRegion {
  textContent : string;
  className : list string;
  backgroundColor : option string;
  color : option string;
  border : option string;
  scrolledIntoView : nat          (* calls of [scrollIntoView] so far *)
}.

(** The closure armed by [handleFormSubmit]. *)
Inductive callback : Type := SubmitDone.

Record Page : Type := mkPage {
  fields : list Field;            (* the controls of #contactForm *)
  errorText : nat -> string;      (* text of each .error-message element *)
  formMessage : option Region;    (* getElementById('formMessage') *)
  timers : list (timer callback);
  now : nat                       (* milliseconds *)
}.

Inductive exn : Type := TypeError (what : string).

Inductive result (A : Type) : Type :=
| Ok (a : A)
| Throw (e : exn).
Arguments Ok {A} a.
Arguments Throw {A} e.

(** A handler reads and writes the page and may throw; what it wrote
    before throwing stays written. *)
Definition M (A : Type) : Type := Page -> result A * Page.

Definition ret {A} (a : A) : M A := fun p => (Ok a, p).

Definition bind {A B} (m : M A) (k : A -> M B) : M B :=
  fun p => match m p with
           | (Ok a, p') => k a p'
           | (Throw e, p') => (Throw e, p')
           end.

Definition throw {A} (e : exn) : M A := fun p => (Throw e, p).

Declare Scope js_scope.
Delimit Scope js_scope with js.
Notation "x <- m ;; k" := (bind m (fun x => k))
  (at level 61, m at next level, right associativity) : js_scope.
Notation "m ;; k" := (bind m (fun _ => k))
  (at level 61, right associativity) : js_scope.
Local Open Scope js_scope.

Definition set_errorText (e : nat) (msg : string) : M unit :=
  fun p => (Ok tt,
            mkPage (fields p)
                   (fun k => if (k =? e)%nat then msg else errorText p k)
                   (formMessage p) (timers p) (now p)).

Definition set_formMessage (r : Region) : M unit :=
  fun p => (Ok tt, mkPage (fields p) (errorText p) (Some r) (timers p) (now p)).

Definition emailRegex : Regex.regex :=
  let part := Regex.Plus (Regex.NoneOf [Regex.Space; Regex.Lit "@"]) in
  Regex.Cat part (Regex.Cat (Regex.Chr "@")
    (Regex.Cat part (Regex.Cat (Regex.Chr ".") part))).

Definition phoneRegex : Regex.regex :=
  Regex.Rep (Regex.OneOf [Regex.Digit; Regex.Space; Regex.Lit "-";
                          Regex.Lit "+"; Regex.Lit "("; Regex.Lit ")"])
            10 15.

Definition validateField (field : Field) : M bool :=
  let errorElement := errorElement field in
  if negb (required field) && (Js.trim (value field) =? "")%string
  then ret true
  else
    let '(isValid, errorMessage) :=
      if required field && (Js.trim (value field) =? "")%string
      then (false, "This field is required")
      else if (type field =? "email")%string
              && negb (Js.trim (value field) =? "")%string
      then
        if negb (Regex.test emailRegex (Js.trim (value field)))
        then (false, "Please enter a valid email address")
        else (true, "")
      else if (type field =? "tel")%string
              && negb (Js.trim (value field) =? "")%string
      then
        if negb (Regex.test phoneRegex (Js.trim (value field)))
        then (false, "Please enter a valid phone number")
        else (true, "")
      else (true, "") in
    match errorElement with
    | Some e =>
        (if negb isValid then set_errorText e errorMessage
         else set_errorText e "") ;;
        ret isValid
    | None => ret isValid
    end.

Definition showFormMessage (message type : string) : M unit :=
  fun p =>
    match formMessage p with
    | None => (Ok tt, p)
    | Some element =>
        let shown :=
          mkRegion message ["form-message"] (backgroundColor element)
                   (color element) (border element)
                   (scrolledIntoView element) in
        let styled :=
          if (type =? "success")%string then
            mkRegion message ["form-message"; "success"]
                     (backgroundColor shown) (color shown) (border shown)
                     (scrolledIntoView shown)
          else if (type =? "error")%string then
            mkRegion message ["form-message"; "error"]
                     (backgroundColor shown) (color shown) (border shown)
                     (scrolledIntoView shown)
          else if (type =? "info")%string then
            mkRegion message (className shown)
                     (Some "rgba(33, 33, 33, 0.1)") (Some "#212121")
                     (Some "1px solid #212121") (scrolledIntoView shown)
          else shown in
        set_formMessage styled p
    end.

(** [requiredFields.forEach(field => { if (!validateField(field)) isValid = false })] *)
Fixpoint validateAll (requiredFields : list Field) (isValid : bool) : M bool :=
  match requiredFields with
  | [] => ret isValid
  | field :: rest =>
      ok <- validateField field ;;
      validateAll rest (if negb ok then false else isValid)
  end.

Definition arm (delay : nat) (c : callback) : M unit :=
  fun p => (Ok tt,
            mkPage (fields p) (errorText p) (formMessage p)
                   (setTimeout (Timer (now p + delay) c) (timers p))
                   (now p)).

Definition handleFormSubmit : M unit :=
  fun p =>
    (let requiredFields := filter required (fields p) in
     isValid <- validateAll requiredFields true ;;
     if negb isValid
     then showFormMessage "Please correct the errors in the form." "error"
     else
       showFormMessage "Sending your message..." "info" ;;
       arm 1500 SubmitDone) p.

(** [form.reset()]: every control goes back to its default value. *)
Definition reset_field (f : Field) : Field :=
  mkField (required f) (type f) (defaultValue f) (defaultValue f)
          (errorElement f).

Definition reset : M unit :=
  fun p => (Ok tt,
            mkPage (map reset_field (fields p))
                   (errorText p) (formMessage p) (timers p) (now p)).

(** [formMessage.scrollIntoView(...)] *)
Definition scrollIntoView : M unit :=
  fun p =>
    match formMessage p with
    | None =>
        throw (TypeError "Cannot read properties of null (reading 'scrollIntoView')") p
    | Some element =>
        set_formMessage
          (mkRegion (textContent element) (className element)
                    (backgroundColor element) (color element)
                    (border element) (S (scrolledIntoView element))) p
    end.

(** The callback of [handleFormSubmit]. Its copy of the form data into
    [submissionData] and the [console.log] of it write nothing to the
    page and are left out. *)
Definition fire (c : callback) : M unit :=
  match c with
  | SubmitDone =>
      showFormMessage
        "Thank you for your message! We will respond to your inquiry within 24 hours."
        "success" ;;
      reset ;;
      scrollIntoView
  end.

(** Runs the callbacks in order; one that throws is reported and the
    next one still runs. *)
Fixpoint fireAll (q : list (timer callback)) (p : Page) : list exn * Page :=
  match q with
  | [] => ([], p)
  | t :: q' =>
      let at_due :=
        mkPage (fields p) (errorText p) (formMessage p) (timers p)
               (Nat.max (now p) (due t)) in
      match fire (run t) at_due with
      | (Ok _, p') => fireAll q' p'
      | (Throw e, p') => let '(es, p'') := fireAll q' p' in (e :: es, p'')
      end
  end.

(** [dt] milliseconds pass with no event. *)
Definition elapse (dt : nat) (p : Page) : list exn * Page :=
  let later := now p + dt in
  let '(es, p') :=
    fireAll (expired later (timers p))
            (mkPage (fields p) (errorText p) (formMessage p)
                    (pending later (timers p)) (now p)) in
  (es, mkPage (fields p') (errorText p') (formMessage p') (timers p') later).

(** The listeners of [initFormValidation]: the user replaces the value
    of the field at [i] by [v], which dispatches [input]. *)
Fixpoint set_value (i : nat) (v : string) (l : list Field) {struct l}
  : list Field :=
  match l, i with
  | [], _ => []
  | f :: l', O =>
      mkField (required f) (type f) v (defaultValue f) (errorElement f) :: l'
  | f :: l', S i' => f :: set_value i' v l'
  end.

Definition on_input (i : nat) (v : string) : M unit :=
  fun p =>
    let p' := mkPage (set_value i v (fields p)) (errorText p)
                     (formMessage p) (timers p) (now p) in
    match nth_error (fields p') i with
    | Some field => (validateField field ;; ret tt) p'
    | None => (Ok tt, p')
    end.

(** What [validateField] answers for a field; the answer does not
    depend on the page (see [validateField_verdict]). *)
Definition blank : Page := mkPage [] (fun _ => "") None [] 0.

Definition verdict (field : Field) : bool :=
  match fst (validateField field blank) with
  | Ok b => b
  | Throw _ => false
  end.

(** The characters of [[^\s@]] and of [[\d\s\-\+\(\)]]. *)
Definition email_char (c : ascii) : bool :=
  negb (Js.is_space c) && negb (Ascii.eqb c "@").

Definition phone_char (c : ascii) : bool :=
  Js.is_digit c || Js.is_space c || Ascii.eqb c "-" || Ascii.eqb c "+"
  || Ascii.eqb c "(" || Ascii.eqb c ")".

(** The shape the specification gives for an e-mail address: at least
    one [@], at least one [.] after it, no white space. *)
Fixpoint has_dot (l : list ascii) : bool :=
  match l with
  | [] => false
  | c :: l' => Ascii.eqb c "." || has_dot l'
  end.

Fixpoint has_at_then_dot (l : list ascii) : bool :=
  match l with
  | [] => false
  | c :: l' => (Ascii.eqb c "@" && has_dot l') || has_at_then_dot l'
  end.

Definition spec_email_shape (v : string) : bool :=
  has_at_then_dot (Js.chars v)
  && forallb (fun c => negb (Js.is_space c)) (Js.chars v).

(** The shape the specification gives for a phone number: 10 to 15
    characters, each a digit, the space character or one of [-+()]. *)
Definition spec_phone_char (c : ascii) : bool :=
  Js.is_digit c || Ascii.eqb c " " || Ascii.eqb c "-" || Ascii.eqb c "+"
  || Ascii.eqb c "(" || Ascii.eqb c ")".

Definition spec_phone_shape (v : string) : bool :=
  (10 <=? String.length v)%nat && (String.length v <=? 15)%nat
  && forallb spec_phone_char (Js.chars v).

End Form.

(** ** The project filter *)

Module Filter.
Import Timers.

(** A [.filter-btn]; [data_filter] is its [data-filter] attribute,
    which the markup gives to every button. *)
Record Button : Type := mkButton {
  data_filter : string;
  active : bool                   (* class 'active' *)
}.

(** A [.project-item]; [data_category] is its [data-category]
    attribute, which the markup gives to every item, the other three
    its inline style. *)
Record Item : Type := mkItem {
  data_category : string;
  display : option string;
  opacity : option string;
  transform : option string
}.

(** The two closures armed by a click, each holding its item. *)
Inductive callback : Type :=
| Appear (i : nat)
| Vanish (i : nat).

Record Page : Type := mkPage {
  filterButtons : list Button;
  projectItems : list Item;
  timers : list (timer callback);
  now : nat
}.

(** [filterButtons.forEach(btn => btn.classList.remove('active'));
    this.classList.add('active')], [this] being the button at [k]. *)
Definition deactivate (btn : Button) : Button :=
  mkButton (data_filter btn) false.

Fixpoint activate (k : nat) (buttons : list Button) {struct buttons}
  : list Button :=
  match buttons with
  | [] => []
  | btn :: rest =>
      match k with
      | O => mkButton (data_filter btn) true :: map deactivate rest
      | S k' => deactivate btn :: activate k' rest
      end
  end.

Definition selected (filterValue : string) (item : Item) : bool :=
  let categories := Js.split_space (data_category item) in
  (filterValue =? "all")%string || Js.includes categories filterValue.

(** [projectItems.forEach(item => ...)], from the item at [i] on. *)
Fixpoint forEachItem (filterValue : string) (now : nat) (i : nat)
    (items : list Item) (q : list (timer callback))
  : list Item * list (timer callback) :=
  match items with
  | [] => ([], q)
  | item :: rest =>
      if selected filterValue item then
        let item' := mkItem (data_category item) (Some "block")
                            (opacity item) (transform item) in
        let q' := setTimeout (Timer (now + 10) (Appear i)) q in
        let '(rest', q'') := forEachItem filterValue now (S i) rest q' in
        (item' :: rest', q'')
      else
        let item' := mkItem (data_category item) (display item)
                            (Some "0") (Some "scale(0.8)") in
        let q' := setTimeout (Timer (now + 300) (Vanish i)) q in
        let '(rest', q'') := forEachItem filterValue now (S i) rest q' in
        (item' :: rest', q'')
  end.

(** A click on the button at [k]. [initProjectFilter] attaches no
    listener when the page has no button or no item. *)
Definition click (k : nat) (p : Page) : Page :=
  match filterButtons p, projectItems p with
  | [], _ => p
  | _, [] => p
  | _, _ =>
      match nth_error (filterButtons p) k with
      | None => p
      | Some this =>
          let filterValue := data_filter this in
          let '(items, q) :=
            forEachItem filterValue (now p) 0 (projectItems p) (timers p) in
          mkPage (activate k (filterButtons p)) items q (now p)
      end
  end.

Fixpoint update (i : nat) (f : Item -> Item) (items : list Item)
    {struct items} : list Item :=
  match items, i with
  | [], _ => []
  | item :: rest, O => f item :: rest
  | item :: rest, S i' => item :: update i' f rest
  end.

Definition fire (c : callback) (items : list Item) : list Item :=
  match c with
  | Appear i =>
      update i (fun item => mkItem (data_category item) (display item)
                                   (Some "1") (Some "scale(1)")) items
  | Vanish i =>
      update i (fun item => mkItem (data_category item) (Some "none")
                                   (opacity item) (transform item)) items
  end.

Definition fireAll (q : list (timer callback)) (items : list Item) : list Item :=
  fold_left (fun items t => fire (run t) items) q items.

(** [dt] milliseconds pass with no event. *)
Definition elapse (dt : nat) (p : Page) : Page :=
  let later := now p + dt in
  mkPage (filterButtons p)
         (fireAll (expired later (timers p)) (projectItems p))
         (pending later (timers p))
         later.

(** The item a callback holds, what the callback does to it, and the
    entries of a queue that hold a given item. *)
Definition target (c : callback) : nat :=
  match c with Appear i => i | Vanish i => i end.

Definition effect (c : callback) (item : Item) : Item :=
  match c with
  | Appear _ => mkItem (data_category item) (display item)
                       (Some "1") (Some "scale(1)")
  | Vanish _ => mkItem (data_category item) (Some "none")
                       (opacity item) (transform item)
  end.

Definition on_item (i : nat) (q : list (timer callback)) : list (timer callback) :=
  filter (fun t => (target (run t) =? i)%nat) q.

(** What the click itself does to an item, and the timer it arms. *)
Definition marked (filterValue : string) (item : Item) : Item :=
  if selected filterValue item
  then mkItem (data_category item) (Some "block") (opacity item) (transform item)
  else mkItem (data_category item) (display item) (Some "0") (Some "scale(0.8)").

Definition armed (filterValue : string) (now i : nat) (item : Item)
  : timer callback :=
  if selected filterValue item
  then Timer (now + 10) (Appear i)
  else Timer (now + 300) (Vanish i).

(** An item as the visitor sees it. *)
Definition shown (item : Item) : Prop :=
  display item = Some "block" /\ opacity item = Some "1"
  /\ transform item = Some "scale(1)".

Definition hidden (item : Item) : Prop :=
  display item = Some "none" /\ opacity item = Some "0"
  /\ transform item = Some "scale(0.8)".

(** The space-separated category set of an item, in the words of the
    specification and without [split]: the category attribute is a run
    of pieces joined by single spaces, no piece holds a space, and the
    set contains [tag] when [tag] is one of the pieces. *)
Definition spaceless (piece : string) : Prop :=
  forallb (fun c => negb (Ascii.eqb c " ")) (Js.chars piece) = true.

Definition category_set_contains (category tag : string) : Prop :=
  exists pieces,
    String.concat " " pieces = category
    /\ Forall spaceless pieces
    /\ In tag pieces.

End Filter.

(** ** The FAQ accordion *)

Module Faq.

(** A [.faq-question] and the element after it, its answer. The answer
    of a question is no question itself and follows that question only,
    so a page is a list of such pairs. [maxHeight] is the inline style
    of the answer, in pixels. *)
Record Pane : Type := mkPane {
  question_active : bool;         (* class 'active' on the question *)
  answer_active : bool;           (* class 'active' on the answer *)
  maxHeight : option nat;
  scrollHeight : nat
}.

(** What the listener does to the pane of [this]. *)
Definition toggle (pane : Pane) : Pane :=
  let q := negb (question_active pane) in
  if answer_active pane
  then mkPane q false None (scrollHeight pane)
  else mkPane q true (Some (scrollHeight pane)) (scrollHeight pane).

(** What the closing loop does to the pane of another question. *)
Definition closeOther (pane : Pane) : Pane :=
  if question_active pane
  then mkPane false false None (scrollHeight pane)
  else pane.

(** A click on the question at [k]. *)
Fixpoint click (k : nat) (faqQuestions : list Pane) {struct faqQuestions}
  : list Pane :=
  match faqQuestions with
  | [] => []
  | pane :: rest =>
      match k with
      | O => toggle pane :: map closeOther rest
      | S k' => closeOther pane :: click k' rest
      end
  end.

Definition clicks (ks : list nat) (panes : list Pane) : list Pane :=
  fold_left (fun panes k => click k panes) ks panes.

(** An answer is expanded when it carries the class that opens it. *)
Definition expanded (pane : Pane) : bool := answer_active pane.

Definition count_expanded (panes : list Pane) : nat :=
  List.length (filter expanded panes).

(** Question and answer of each pane agree, and the height of the
    answer is set exactly when it is expanded: the state of a page as
    loaded, and of every page the listener has produced from it. *)
Definition coherent (pane : Pane) : bool :=
  Bool.eqb (question_active pane) (answer_active pane)
  && match maxHeight pane with
     | Some h => answer_active pane && (h =? scrollHeight pane)%nat
     | None => negb (answer_active pane)
     end.

Definition well_formed (panes : list Pane) : Prop :=
  forallb coherent panes = true /\ count_expanded panes <= 1.

End Faq.

(** ** The scroll reveal *)

Module Scroll.

(** One of the cards that the reveal tracks: the [top] of its bounding
    rectangle and its inline style. The script computes on doubles;
    here lengths are exact rationals, and [innerHeight / 1.2] is the
    exact quotient. *)
Record Element : Type := mkElement {
  top : Q;
  opacity : option string;
  transform : option string
}.

Record Window : Type := mkWindow {
  innerWidth : Z;
  innerHeight : Z;
  animatedElements : list Element;
  listening : bool;          (* handleScrollAnimations listens to 'scroll' *)
  scrollTimeout : option nat;     (* due time of the debounced call *)
  now : nat
}.

Definition Qlt_bool (x y : Q) : bool := negb (Qle_bool y x).

Definition reveal (innerHeight : Z) (element : Element) : Element :=
  let elementPosition := top element in
  let screenPosition := (inject_Z innerHeight / (12 # 10))%Q in
  if Qlt_bool elementPosition screenPosition
  then mkElement (top element) (Some "1") (Some "translateY(0)")
  else element.

Definition handleScrollAnimations (w : Window) : Window :=
  mkWindow (innerWidth w) (innerHeight w)
           (map (reveal (innerHeight w)) (animatedElements w))
           (listening w) (scrollTimeout w) (now w).

Definition initScrollAnimations (w : Window) : Window :=
  if (768 <? innerWidth w)%Z then
    handleScrollAnimations
      (mkWindow (innerWidth w) (innerHeight w) (animatedElements w)
                true (scrollTimeout w) (now w))
  else w.

(** The page as the script finds it, then [DOMContentLoaded]. *)
Definition load (width height : Z) (elements : list Element) : Window :=
  initScrollAnimations (mkWindow width height elements false None 0).

(** The listener added at the end of the script:
    [clearTimeout(scrollTimeout);
     scrollTimeout = setTimeout(handleScrollAnimations, 100)]. *)
Definition debounce (w : Window) : Window :=
  mkWindow (innerWidth w) (innerHeight w) (animatedElements w)
           (listening w) (Some (now w + 100)) (now w).

Inductive event : Type :=
| Scrolled (dy : Q)               (* the page moves up by [dy] *)
| Elapsed (dt : nat).             (* [dt] milliseconds pass *)

Definition moved (dy : Q) (element : Element) : Element :=
  mkElement (top element - dy)%Q (opacity element) (transform element).

Definition step (w : Window) (e : event) : Window :=
  match e with
  | Scrolled dy =>
      let w1 := mkWindow (innerWidth w) (innerHeight w)
                         (map (moved dy) (animatedElements w))
                         (listening w) (scrollTimeout w) (now w) in
      let w2 := debounce w1 in
      if listening w2 then handleScrollAnimations w2 else w2
  | Elapsed dt =>
      let later := now w + dt in
      let w1 :=
        match scrollTimeout w with
        | Some due =>
            if (due <=? later)%nat
            then handleScrollAnimations
                   (mkWindow (innerWidth w) (innerHeight w)
                             (animatedElements w) (listening w) None (now w))
            else w
        | None => w
        end in
      mkWindow (innerWidth w1) (innerHeight w1) (animatedElements w1)
               (listening w1) (scrollTimeout w1) later
  end.

Definition run (w : Window) (es : list event) : Window :=
  fold_left step es w.

(** The style of an element, which is all the reveal writes. *)
Definition style (element : Element) : option string * option string :=
  (opacity element, transform element).

Definition revealed (element : Element) : Prop :=
  style element = (Some "1", Some "translateY(0)").

End Scroll.

(** ** A visit of the contact form

    The events that reach the form, one after the other, with the
    exceptions that handlers and callbacks have thrown so far. *)

Module Session.
Import Form.

Inductive event : Type :=
| Input (i : nat) (v : string)      (* the field at [i] now holds [v] *)
| Submit
| Elapse (dt : nat).

Definition step (s : list exn * Page) (e : event) : list exn * Page :=
  let '(thrown, p) := s in
  match e with
  | Input i v =>
      match on_input i v p with
      | (Ok _, p') => (thrown, p')
      | (Throw x, p') => (thrown ++ [x], p')
      end
  | Submit =>
      match handleFormSubmit p with
      | (Ok _, p') => (thrown, p')
      | (Throw x, p') => (thrown ++ [x], p')
      end
  | Elapse dt =>
      let '(xs, p') := elapse dt p in (thrown ++ xs, p')
  end.

Definition run (p : Page) (es : list event) : list exn * Page :=
  fold_left step es ([], p).

(** The inline style that [showFormMessage] gives an [info] message. *)
Definition info_style (m : Region) : Prop :=
  backgroundColor m = Some "rgba(33, 33, 33, 0.1)"
  /\ color m = Some "#212121"
  /\ border m = Some "1px solid #212121".

End Session.

(** ** The mobile navigation *)

Module Nav.

(** [hamburger] and [navMenu] are what [querySelector] answers for
    [.hamburger] and [.nav-menu]: nothing, or the element, of which the
    script reads and writes the class [active]. *)
Record Page : Type := mkPage {
  hamburger : option bool;
  navMenu : option bool
}.

Inductive event : Type :=
| HamburgerClick
| LinkClick.                        (* a click on some [.nav-link] *)

(** [initMobileNav] adds its listeners only when both elements exist. *)
Definition step (p : Page) (e : event) : Page :=
  match hamburger p, navMenu p with
  | Some h, Some m =>
      match e with
      | HamburgerClick => mkPage (Some (negb h)) (Some (negb m))
      | LinkClick => mkPage (Some false) (Some false)
      end
  | _, _ => p
  end.

Definition run (p : Page) (es : list event) : Page :=
  fold_left step es p.

End Nav.

(** ** The highlighted menu entry *)

Module Menu.

(** [s.split(sep)] for a separator of one character. *)
Fixpoint split (sep : ascii) (s : string) : list string :=
  match s with
  | EmptyString => [EmptyString]
  | String c s' =>
      if Ascii.eqb c sep then EmptyString :: split sep s'
      else match split sep s' with
           | piece :: rest => String c piece :: rest
           | [] => [String c EmptyString]
           end
  end.

(** [pop()] on what [split] answers, which is never the empty array. *)
Definition pop (l : list string) : string := last l EmptyString.

(** A [.nav-link]: its [href] attribute, if it has one, and the class
    [active]. *)
Record Link : Type := mkLink {
  href : option string;
  active : bool
}.

(** [linkHref === s] *)
Definition strictEq (linkHref : option string) (s : string) : bool :=
  match linkHref with
  | Some h => (h =? s)%string
  | None => false
  end.

Definition highlightActiveMenu (pathname : string) (navLinks : list Link)
  : list Link :=
  let currentPage := pop (split "/" pathname) in
  map (fun link =>
         let linkHref := href link in
         if strictEq linkHref currentPage
            || ((currentPage =? "")%string && strictEq linkHref "index.html")
            || ((currentPage =? "index.html")%string && strictEq linkHref "index.html")
         then mkLink (href link) true
         else mkLink (href link) false)
      navLinks.

(** Whether a string holds the character [c]. *)
Definition holds (c : ascii) (s : string) : bool :=
  existsb (Ascii.eqb c) (Js.chars s).

End Menu.

(* ================================================================== *)
(** * Part II: properties *)
(* ================================================================== *)

(** ** The matcher decides the language *)

Section RegexFacts.
Import Regex.

Lemma matches_Cat_inv (r1 r2 : regex) (l : list ascii) :
  matches (Cat r1 r2) l ->
  exists l1 l2, l = l1 ++ l2 /\ matches r1 l1 /\ matches r2 l2.
Proof. inversion 1; subst; eauto. Qed.

Lemma matches_Alt_inv (r1 r2 : regex) (l : list ascii) :
  matches (Alt r1 r2) l -> matches r1 l \/ matches r2 l.
Proof. inversion 1; subst; auto. Qed.

Lemma matches_Eps_inv (l : list ascii) : matches Eps l -> l = [].
Proof. now inversion 1. Qed.

Lemma matches_Chr_inv (c : ascii) (l : list ascii) :
  matches (Chr c) l -> l = [c].
Proof. now inversion 1. Qed.

Lemma matches_nil_app (r1 r2 : regex) :
  matches r1 [] -> matches r2 [] -> matches (Cat r1 r2) [].
Proof. intros H1 H2. apply (MCat H1 H2). Qed.

Lemma matches_cons_app (r1 r2 : regex) (c : ascii) (l1 l2 : list ascii) :
  matches r1 (c :: l1) -> matches r2 l2 -> matches (Cat r1 r2) (c :: l1 ++ l2).
Proof. intros H1 H2. apply (MCat H1 H2). Qed.

Lemma matches_star_cons (r : regex) (c : ascii) (l1 l2 : list ascii) :
  matches r (c :: l1) -> matches (Star r) l2 -> matches (Star r) (c :: l1 ++ l2).
Proof. intros H1 H2. apply (MStarS H1 H2). Qed.

Lemma nullable_matches (r : regex) : nullable r = true <-> matches r [].
Proof.
  induction r; simpl; split; intro H;
    try discriminate; try (now constructor); try (now inversion H).
  - apply andb_true_iff in H as [H1 H2].
    apply matches_nil_app; [apply IHr1 | apply IHr2]; assumption.
  - apply matches_Cat_inv in H as (l1 & l2 & E & M1 & M2).
    symmetry in E. apply app_eq_nil in E as [-> ->].
    apply andb_true_iff; split; [apply IHr1 | apply IHr2]; assumption.
  - apply orb_true_iff in H as [H | H];
      [apply MAltL, IHr1 | apply MAltR, IHr2]; assumption.
  - apply orb_true_iff.
    apply matches_Alt_inv in H as [H | H];
      [left; apply IHr1 | right; apply IHr2]; assumption.
Qed.

Lemma deriv_sound (c : ascii) (r : regex) :
  forall l, matches (deriv c r) l -> matches r (c :: l).
Proof.
  induction r; simpl; intros l H.
  - inversion H.
  - inversion H.
  - destruct (Ascii.eqb_spec c0 c); [| inversion H].
    apply matches_Eps_inv in H. subst. constructor.
  - destruct (class_has items c) eqn:E; [| inversion H].
    apply matches_Eps_inv in H. subst. now constructor.
  - destruct (class_has items c) eqn:E; [inversion H |].
    apply matches_Eps_inv in H. subst. now constructor.
  - destruct (nullable r1) eqn:N.
    + apply matches_Alt_inv in H as [H | H].
      * apply matches_Cat_inv in H as (l1 & l2 & -> & M1 & M2).
        apply matches_cons_app; auto.
      * apply (@MCat r1 r2 [] (c :: l)); [now apply nullable_matches | auto].
    + apply matches_Cat_inv in H as (l1 & l2 & -> & M1 & M2).
      apply matches_cons_app; auto.
  - apply matches_Alt_inv in H as [H | H]; [apply MAltL | apply MAltR]; auto.
  - apply matches_Cat_inv in H as (l1 & l2 & -> & M1 & M2).
    apply matches_star_cons; auto.
Qed.

Lemma deriv_complete (c : ascii) (r : regex) (l0 : list ascii) :
  matches r l0 -> forall l, l0 = c :: l -> matches (deriv c r) l.
Proof.
  induction 1 as [| x | items x Hx | items x Hx
                  | r1 r2 l1 l2 M1 IH1 M2 IH2
                  | r1 r2 l1 M1 IH1 | r1 r2 l1 M2 IH2
                  | r1 | r1 l1 l2 M1 IH1 M2 IH2];
    intros l E; simpl.
  - discriminate.
  - injection E as -> <-. rewrite Ascii.eqb_refl. constructor.
  - injection E as -> <-. rewrite Hx. constructor.
  - injection E as -> <-. rewrite Hx. constructor.
  - destruct l1 as [| a l1'].
    + simpl in E. apply nullable_matches in M1. rewrite M1.
      apply MAltR. auto.
    + simpl in E. injection E as -> <-.
      destruct (nullable r1).
      * apply MAltL. constructor; auto.
      * constructor; auto.
  - apply MAltL. auto.
  - apply MAltR. auto.
  - discriminate.
  - destruct l1 as [| a l1'].
    + simpl in E. apply (IH2 _ E).
    + simpl in E. injection E as -> <-.
      constructor; auto.
Qed.

Lemma accepts_matches (l : list ascii) :
  forall r, accepts r l = true <-> matches r l.
Proof.
  induction l as [| c l IH]; intro r; simpl.
  - apply nullable_matches.
  - rewrite IH. split.
    + apply deriv_sound.
    + intro H. now apply (deriv_complete H).
Qed.

(** *** Patterns made of one class *)

Lemma one_of_OneOf (items : list atom) :
  one_of (OneOf items) (class_has items).
Proof.
  intro l. split.
  - inversion 1; subst. eauto.
  - intros (c & -> & H). now constructor.
Qed.

Lemma one_of_NoneOf (items : list atom) :
  one_of (NoneOf items) (fun c => negb (class_has items c)).
Proof.
  intro l. split.
  - inversion 1; subst. eexists. split; [reflexivity |].
    now apply negb_true_iff.
  - intros (c & -> & H). constructor. now apply negb_true_iff.
Qed.

Section OneClass.
Variables (r : regex) (P : ascii -> bool).
Hypothesis Hr : one_of r P.

Lemma one_of_cons (c : ascii) : P c = true -> matches r [c].
Proof. intro H. apply Hr. eauto. Qed.

Lemma star_class_sound (r0 : regex) (l : list ascii) :
  matches r0 l -> r0 = Star r -> forallb P l = true.
Proof.
  induction 1 as [| | | | | | | | r1 l1 l2 M1 _ M2 IH2]; intro E;
    try discriminate; [reflexivity |].
  injection E as ->.
  apply Hr in M1 as (c & -> & Hc). simpl. rewrite Hc. auto.
Qed.

Lemma star_class (l : list ascii) :
  matches (Star r) l <-> forallb P l = true.
Proof.
  split.
  - intro H. now apply (star_class_sound H).
  - induction l as [| c l IH]; simpl; intro H.
    + constructor.
    + apply andb_true_iff in H as [Hc Hl].
      apply (@matches_star_cons r c [] l); auto using one_of_cons.
Qed.

Lemma plus_class (l : list ascii) :
  matches (Plus r) l <-> l <> [] /\ forallb P l = true.
Proof.
  unfold Plus. split.
  - intro H. apply matches_Cat_inv in H as (l1 & l2 & -> & M1 & M2).
    apply Hr in M1 as (c & -> & Hc). apply star_class in M2.
    simpl. rewrite Hc. split; [discriminate | assumption].
  - intros [Hne H]. destruct l as [| c l]; [congruence |].
    simpl in H. apply andb_true_iff in H as [Hc Hl].
    apply (@matches_cons_app r (Star r) c [] l);
      [now apply one_of_cons | now apply star_class].
Qed.

Lemma power_class (n : nat) (tail : regex) :
  forall l, matches (power r n tail) l <->
            exists l1 l2, l = l1 ++ l2 /\ List.length l1 = n
                          /\ forallb P l1 = true /\ matches tail l2.
Proof.
  induction n as [| n IH]; simpl; intro l.
  - split.
    + intro H. exists [], l. auto.
    + intros (l1 & l2 & -> & E & _ & H).
      apply length_zero_iff_nil in E. now subst.
  - split.
    + intro H. apply matches_Cat_inv in H as (k1 & k2 & -> & M1 & M2).
      apply Hr in M1 as (c & -> & Hc).
      apply IH in M2 as (l1 & l2 & -> & E & H1 & H2).
      exists (c :: l1), l2. simpl. rewrite Hc. auto.
    + intros (l1 & l2 & -> & E & H1 & H2).
      destruct l1 as [| c l1]; [discriminate |].
      simpl in *. apply andb_true_iff in H1 as [Hc H1].
      apply (@matches_cons_app r _ c [] (l1 ++ l2));
        [now apply one_of_cons |].
      apply IH. exists l1, l2. auto.
Qed.

Lemma optional_power_class (n : nat) :
  forall l, matches (power (Opt r) n Eps) l <->
            List.length l <= n /\ forallb P l = true.
Proof.
  induction n as [| n IH]; simpl; intro l.
  - split.
    + intro H. apply matches_Eps_inv in H. subst. simpl. auto.
    + intros [E _]. destruct l; [constructor | simpl in E; lia].
  - split.
    + intro H. apply matches_Cat_inv in H as (k1 & k2 & -> & M1 & M2).
      apply IH in M2 as [E H2].
      apply matches_Alt_inv in M1 as [M1 | M1].
      * apply matches_Eps_inv in M1. subst. simpl. auto.
      * apply Hr in M1 as (c & -> & Hc). simpl. rewrite Hc.
        split; [lia | assumption].
    + intros [E H]. destruct l as [| c l].
      * apply matches_nil_app; [apply MAltL; constructor |].
        apply IH. simpl. split; [lia | reflexivity].
      * simpl in *. apply andb_true_iff in H as [Hc Hl].
        apply (@matches_cons_app (Opt r) _ c [] l);
          [apply MAltR; now apply one_of_cons |].
        apply IH. split; [lia | assumption].
Qed.

Lemma rep_class (lo hi : nat) (l : list ascii) :
  lo <= hi ->
  (matches (Rep r lo hi) l <->
   lo <= List.length l <= hi /\ forallb P l = true).
Proof.
  intro Hle. unfold Rep. rewrite power_class. split.
  - intros (l1 & l2 & -> & E & H1 & H2).
    apply optional_power_class in H2 as [E2 H2].
    rewrite length_app, forallb_app, H1, H2. split; [lia | reflexivity].
  - intros [E H].
    exists (firstn lo l), (skipn lo l).
    rewrite <- (firstn_skipn lo l) in H.
    rewrite forallb_app in H. apply andb_true_iff in H as [H1 H2].
    repeat split.
    + symmetry. apply firstn_skipn.
    + apply firstn_length_le. lia.
    + assumption.
    + apply optional_power_class. rewrite length_skipn.
      split; [lia | assumption].
Qed.
End OneClass.

End RegexFacts.

(** ** Field validation *)

Section ValidationFacts.
Import Regex Form.

Lemma length_chars (s : string) :
  List.length (Js.chars s) = String.length s.
Proof. induction s; simpl; auto. Qed.

Lemma one_of_ext (r : regex) (P Q : ascii -> bool) :
  one_of r P -> (forall c, P c = Q c) -> one_of r Q.
Proof.
  intros H E l. rewrite (H l).
  split; intros (c & -> & Hc); exists c; split; auto; congruence.
Qed.

Lemma one_of_email_char :
  one_of (NoneOf [Space; Lit "@"]) email_char.
Proof.
  eapply one_of_ext; [apply one_of_NoneOf |].
  intro c. unfold class_has, email_char. cbn [existsb atom_has].
  rewrite orb_false_r, negb_orb, (Ascii.eqb_sym "@" c). reflexivity.
Qed.

Lemma one_of_phone_char :
  one_of (OneOf [Digit; Space; Lit "-"; Lit "+"; Lit "("; Lit ")"])
         phone_char.
Proof.
  eapply one_of_ext; [apply one_of_OneOf |].
  intro c. unfold class_has, phone_char. cbn [existsb atom_has].
  rewrite orb_false_r, !orb_assoc.
  rewrite (Ascii.eqb_sym "-" c), (Ascii.eqb_sym "+" c),
    (Ascii.eqb_sym "(" c), (Ascii.eqb_sym ")" c).
  reflexivity.
Qed.

(** [emailRegex] accepts [L@D.T] with [L], [D] and [T] not empty and
    free of white space and of [@], and nothing else. *)
Lemma emailRegex_language (l : list ascii) :
  accepts emailRegex l = true <->
  exists L D T,
    l = L ++ "@"%char :: D ++ "."%char :: T
    /\ L <> [] /\ D <> [] /\ T <> []
    /\ forallb email_char (L ++ D ++ T) = true.
Proof.
  rewrite accepts_matches. unfold emailRegex.
  pose proof (plus_class one_of_email_char) as HP.
  split.
  - intro H.
    apply matches_Cat_inv in H as (L & l1 & -> & HL & H).
    apply matches_Cat_inv in H as (a & l2 & -> & Ha & H).
    apply matches_Cat_inv in H as (D & l3 & -> & HD & H).
    apply matches_Cat_inv in H as (d & T & -> & Hd & HT).
    apply matches_Chr_inv in Ha, Hd. subst.
    apply HP in HL as [? HL], HD as [? HD], HT as [? HT].
    exists L, D, T. rewrite !forallb_app, HL, HD, HT. auto.
  - intros (L & D & T & -> & ? & ? & ? & H).
    rewrite !forallb_app in H.
    apply andb_true_iff in H as [HL H].
    apply andb_true_iff in H as [HD HT].
    constructor; [now apply HP |].
    apply (@MCat (Chr "@") _ ["@"%char]); [constructor |].
    constructor; [now apply HP |].
    apply (@MCat (Chr ".") _ ["."%char]); [constructor |].
    now apply HP.
Qed.

(** [phoneRegex] accepts the strings of 10 to 15 characters of its
    class, and nothing else. *)
Lemma phoneRegex_language (l : list ascii) :
  accepts phoneRegex l = true <->
  10 <= List.length l <= 15 /\ forallb phone_char l = true.
Proof.
  rewrite accepts_matches. unfold phoneRegex.
  apply (rep_class one_of_phone_char). lia.
Qed.

Ltac cases_of_validateField field :=
  unfold verdict, validateField, set_errorText, bind, ret; simpl;
  destruct (required field); simpl;
  destruct (Js.trim (value field) =? "")%string; simpl;
  destruct (type field =? "email")%string; simpl;
  try destruct (test emailRegex (Js.trim (value field))); simpl;
  try destruct (type field =? "tel")%string; simpl;
  try destruct (test phoneRegex (Js.trim (value field))); simpl;
  destruct (errorElement field); simpl.

(** The answer of [validateField], without the page. *)
Lemma verdict_eq (field : Field) :
  verdict field =
  let empty := (Js.trim (value field) =? "")%string in
  if negb (required field) && empty then true
  else if required field && empty then false
  else if (type field =? "email")%string && negb empty
       then test emailRegex (Js.trim (value field))
  else if (type field =? "tel")%string && negb empty
       then test phoneRegex (Js.trim (value field))
  else true.
Proof. cases_of_validateField field; reflexivity. Qed.

(** [validateField] answers [verdict] on every page, never throws, and
    writes nothing but the text of error elements. *)
Lemma validateField_verdict (field : Field) (p : Page) :
  exists text,
    validateField field p =
    (Ok (verdict field),
     mkPage (fields p) text (formMessage p) (timers p) (now p)).
Proof.
  destruct p as [fs et fm ts n].
  cases_of_validateField field; eexists; reflexivity.
Qed.

(** The text that [validateField] leaves in the error element of a
    field it does not skip. *)
Lemma validateField_message (field : Field) (p : Page) (e : nat) :
  errorElement field = Some e ->
  negb (required field) && (Js.trim (value field) =? "")%string = false ->
  errorText (snd (validateField field p)) e =
  if verdict field then ""
  else if (Js.trim (value field) =? "")%string then "This field is required"
  else if (type field =? "email")%string
       then "Please enter a valid email address"
  else "Please enter a valid phone number".
Proof.
  intros He Hskip. revert Hskip.
  unfold verdict, validateField, set_errorText, bind, ret. rewrite He. simpl.
  destruct (required field); simpl;
  destruct (Js.trim (value field) =? "")%string; simpl;
  try discriminate; intros _;
  destruct (type field =? "email")%string; simpl;
  try destruct (test emailRegex (Js.trim (value field))); simpl;
  try destruct (type field =? "tel")%string; simpl;
  try destruct (test phoneRegex (Js.trim (value field))); simpl;
  rewrite ?Nat.eqb_refl; reflexivity.
Qed.

(** Where [validateField] does not skip the field, the error element
    of the field ends up empty exactly when the field is valid. *)
Lemma message_empty_iff_valid (field : Field) (p : Page) (e : nat) :
  errorElement field = Some e ->
  negb (required field) && (Js.trim (value field) =? "")%string = false ->
  (errorText (snd (validateField field p)) e = "" <-> verdict field = true).
Proof.
  intros He Hskip. rewrite (validateField_message field p He Hskip).
  destruct (verdict field); [tauto |].
  destruct (Js.trim (value field) =? "")%string;
    [| destruct (type field =? "email")%string];
    split; discriminate.
Qed.

End ValidationFacts.

(** ** Claims on validation *)

Section ValidationClaims.
Import Regex Form.

Lemma nonempty_eqb (s : string) : s <> "" -> (s =? "")%string = false.
Proof. intro H. now apply String.eqb_neq. Qed.

(** C3, as amended. For a field of type email whose value is not empty
    once trimmed, [validateField] answers valid if and only if the
    trimmed value reads [L@D.T] with [L], [D] and [T] not empty and free
    of white space and of [@] (so exactly one [@], and a dot inside the
    part after it). In particular [a@b.co] is valid, and [abc] is
    invalid and leaves "Please enter a valid email address" in the error
    element of the field. *)
Theorem email_verdict (field : Field) :
  type field = "email" ->
  Js.trim (value field) <> "" ->
  (verdict field = true <->
   exists L D T,
     Js.chars (Js.trim (value field)) = L ++ "@"%char :: D ++ "."%char :: T
     /\ L <> [] /\ D <> [] /\ T <> []
     /\ forallb email_char (L ++ D ++ T) = true)
  /\ (value field = "a@b.co" -> verdict field = true)
  /\ (value field = "abc" ->
      verdict field = false
      /\ forall e p, errorElement field = Some e ->
           errorText (snd (validateField field p)) e
           = "Please enter a valid email address").
Proof.
  intros Ht Hv.
  assert (Hverdict : verdict field = test emailRegex (Js.trim (value field))).
  { rewrite verdict_eq. cbv zeta. rewrite Ht, (nonempty_eqb Hv).
    rewrite !andb_false_r. reflexivity. }
  split; [| split].
  - rewrite Hverdict. apply emailRegex_language.
  - intro E. rewrite Hverdict, E. reflexivity.
  - intro E.
    assert (Hf : verdict field = false)
      by (rewrite Hverdict, E; reflexivity).
    split; [exact Hf |].
    intros e p He.
    rewrite (validateField_message field p He).
    + rewrite Hf, Ht, (nonempty_eqb Hv). reflexivity.
    + rewrite (nonempty_eqb Hv). apply andb_false_r.
Qed.

Lemma email_verdict_witness :
  verdict (mkField true "email" "info@nilesh.example" "" (Some 0)) = true
  <-> exists L D T,
      Js.chars (Js.trim "info@nilesh.example")
      = L ++ "@"%char :: D ++ "."%char :: T
      /\ L <> [] /\ D <> [] /\ T <> []
      /\ forallb email_char (L ++ D ++ T) = true.
Proof.
  apply (email_verdict (mkField true "email" "info@nilesh.example" "" (Some 0))).
  - reflexivity.
  - vm_compute. discriminate.
Defined.

(** C3 as stated fails: [a@@b.co] has an [@], a dot after it and no
    white space, and [validateField] rejects it. *)
Lemma email_shape_counterexample :
  type (mkField true "email" "a@@b.co" "" None) = "email"
  /\ value (mkField true "email" "a@@b.co" "" None) <> ""
  /\ spec_email_shape (value (mkField true "email" "a@@b.co" "" None)) = true
  /\ verdict (mkField true "email" "a@@b.co" "" None) = false.
Proof. repeat split. discriminate. Qed.

(** C8, as amended. For a field of type tel whose value is not empty
    once trimmed, [validateField] answers valid if and only if the
    trimmed value is 10 to 15 characters long and made of digits, white
    space (space, tab and the like), [-], [+], [(] and [)]. In
    particular [+91 98765 43210] is valid and [12345] is not. *)
Theorem phone_verdict (field : Field) :
  type field = "tel" ->
  Js.trim (value field) <> "" ->
  (verdict field = true <->
   10 <= String.length (Js.trim (value field)) <= 15
   /\ forallb phone_char (Js.chars (Js.trim (value field))) = true)
  /\ (value field = "+91 98765 43210" -> verdict field = true)
  /\ (value field = "12345" -> verdict field = false).
Proof.
  intros Ht Hv.
  assert (Hverdict : verdict field = test phoneRegex (Js.trim (value field))).
  { rewrite verdict_eq. cbv zeta. rewrite Ht, (nonempty_eqb Hv).
    rewrite !andb_false_r. reflexivity. }
  split; [| split].
  - rewrite Hverdict, <- length_chars. apply phoneRegex_language.
  - intro E. rewrite Hverdict, E. reflexivity.
  - intro E. rewrite Hverdict, E. reflexivity.
Qed.

Lemma phone_verdict_witness :
  verdict (mkField false "tel" "(022) 2345-6789" "" None) = true
  <-> 10 <= String.length (Js.trim "(022) 2345-6789") <= 15
      /\ forallb phone_char (Js.chars (Js.trim "(022) 2345-6789")) = true.
Proof.
  apply (phone_verdict (mkField false "tel" "(022) 2345-6789" "" None)).
  - reflexivity.
  - vm_compute. discriminate.
Defined.

(** C8 as stated fails: a space followed by nine digits is ten
    characters of the stated kind, and [validateField], which measures
    the trimmed value, rejects it. *)
Lemma phone_shape_counterexample :
  type (mkField true "tel" " 123456789" "" None) = "tel"
  /\ value (mkField true "tel" " 123456789" "" None) <> ""
  /\ spec_phone_shape (value (mkField true "tel" " 123456789" "" None)) = true
  /\ verdict (mkField true "tel" " 123456789" "" None) = false.
Proof. repeat split. discriminate. Qed.

(** C6, at its failing input. An optional e-mail field with an error
    element: the visitor types [abc], then empties the field. The second
    validation judges the field valid and the error element still shows
    the message of the first. *)
Theorem stale_message_on_emptied_field :
  exists p1 p2,
    on_input 0 "abc"
      (mkPage [mkField false "email" "" "" (Some 0)] (fun _ => "") None [] 0)
    = (Ok tt, p1)
    /\ errorText p1 0 = "Please enter a valid email address"
    /\ on_input 0 "" p1 = (Ok tt, p2)
    /\ fields p2 = [mkField false "email" "" "" (Some 0)]
    /\ fst (validateField (mkField false "email" "" "" (Some 0)) p1) = Ok true
    /\ verdict (mkField false "email" "" "" (Some 0)) = true
    /\ errorText p2 0 = "Please enter a valid email address".
Proof. do 2 eexists. repeat split. Qed.

End ValidationClaims.

(** ** The simulated submission *)

Section SubmissionFacts.
Import Timers Form.

Lemma validateAll_verdict (requiredFields : list Field) :
  forall (isValid : bool) (p : Page),
  exists text,
    validateAll requiredFields isValid p =
    (Ok (isValid && forallb verdict requiredFields),
     mkPage (fields p) text (formMessage p) (timers p) (now p)).
Proof.
  induction requiredFields as [| field rest IH]; intros isValid p; simpl.
  - exists (errorText p). unfold ret. rewrite andb_true_r.
    now destruct p.
  - unfold bind.
    destruct (validateField_verdict field p) as [text ->].
    destruct (IH (if negb (verdict field) then false else isValid)
                 (mkPage (fields p) text (formMessage p) (timers p) (now p)))
      as [text' ->].
    exists text'. simpl.
    destruct (verdict field), isValid; reflexivity.
Qed.

(** What [handleFormSubmit] does when a required field is rejected. *)
Lemma handleFormSubmit_rejected (p : Page) :
  forallb verdict (filter required (fields p)) = false ->
  exists text,
    handleFormSubmit p =
    showFormMessage "Please correct the errors in the form." "error"
      (mkPage (fields p) text (formMessage p) (timers p) (now p)).
Proof.
  intro H. unfold handleFormSubmit, bind.
  destruct (validateAll_verdict (filter required (fields p)) true p)
    as [text ->].
  rewrite H. simpl. eauto.
Qed.

(** What [handleFormSubmit] does when every required field passes. *)
Lemma handleFormSubmit_accepted (p : Page) :
  forallb verdict (filter required (fields p)) = true ->
  exists text,
    handleFormSubmit p =
    (showFormMessage "Sending your message..." "info" ;; arm 1500 SubmitDone)%js
      (mkPage (fields p) text (formMessage p) (timers p) (now p)).
Proof.
  intro H. unfold handleFormSubmit, bind.
  destruct (validateAll_verdict (filter required (fields p)) true p)
    as [text ->].
  rewrite H. simpl. eauto.
Qed.

(** The listener itself never throws. *)
Lemma handleFormSubmit_returns (p : Page) :
  exists p', handleFormSubmit p = (Ok tt, p').
Proof.
  destruct (forallb verdict (filter required (fields p))) eqn:Hv.
  - destruct (handleFormSubmit_accepted p Hv) as [text ->].
    unfold bind, showFormMessage, set_formMessage, arm. simpl.
    destruct (formMessage p); simpl; eauto.
  - destruct (handleFormSubmit_rejected p Hv) as [text ->].
    unfold showFormMessage, set_formMessage. simpl.
    destruct (formMessage p); simpl; eauto.
Qed.

Lemma reset_fields_default (l : list Field) :
  Forall (fun f => value f = defaultValue f) (map reset_field l).
Proof. induction l; simpl; constructor; auto. Qed.

(** After [form.reset()] the values are the defaults of before. *)
Lemma reset_values (l : list Field) :
  map value (map reset_field l) = map defaultValue l.
Proof. induction l as [| f l IH]; simpl; [| rewrite IH]; reflexivity. Qed.

(** [form.reset()] field by field: the value becomes the default, the
    rest of the field stays. *)
Lemma nth_error_reset (l : list Field) (i : nat) (f : Field) :
  nth_error l i = Some f ->
  nth_error (map reset_field l) i =
  Some (mkField (required f) (type f) (defaultValue f) (defaultValue f)
                (errorElement f)).
Proof. intro H. now rewrite (map_nth_error reset_field i l H). Qed.

End SubmissionFacts.

Section SubmissionClaims.
Import Timers Form.

(** C1. On a page that has the message region and no submission under
    way, when every required field validates, [handleFormSubmit] shows
    "Sending your message..." and arms one timer of 1500 ms; until then
    the page stays as it is; once 1500 ms have passed the region shows
    the thank-you message with class [success], the value of every field
    is the default value that the field had before the submission (what
    the visitor typed is gone) while the rest of the field is as it was,
    the region has been scrolled into view once more, and nothing has
    thrown. *)
Theorem submit_valid_form (p : Page) (m : Region) :
  formMessage p = Some m ->
  timers p = [] ->
  forallb verdict (filter required (fields p)) = true ->
  exists p1 m1,
    handleFormSubmit p = (Ok tt, p1)
    /\ formMessage p1 = Some m1
    /\ textContent m1 = "Sending your message..."
    /\ className m1 = ["form-message"]
    /\ fields p1 = fields p
    /\ timers p1 = [Timer (now p + 1500) SubmitDone]
    /\ now p1 = now p
    /\ (forall dt, dt < 1500 ->
        exists p', elapse dt p1 = ([], p')
          /\ formMessage p' = Some m1 /\ fields p' = fields p
          /\ timers p' = timers p1)
    /\ (forall dt, 1500 <= dt ->
        exists p2 m2, elapse dt p1 = ([], p2)
          /\ formMessage p2 = Some m2
          /\ textContent m2 =
             "Thank you for your message! We will respond to your inquiry within 24 hours."
          /\ className m2 = ["form-message"; "success"]
          /\ scrolledIntoView m2 = S (scrolledIntoView m)
          /\ map value (fields p2) = map defaultValue (fields p)
          /\ (forall i f,
                nth_error (fields p) i = Some f ->
                nth_error (fields p2) i =
                Some (mkField (required f) (type f) (defaultValue f)
                              (defaultValue f) (errorElement f)))
          /\ timers p2 = []).
Proof.
  intros Hm Ht Hv.
  destruct (handleFormSubmit_accepted p Hv) as [text ->].
  unfold bind, showFormMessage, set_formMessage, arm. simpl.
  rewrite Hm, Ht. simpl.
  do 2 eexists. split; [reflexivity |]. simpl.
  repeat (split; [reflexivity |]).
  split.
  - intros dt Hdt. unfold elapse, expired, pending. simpl.
    destruct (Nat.leb_spec (now p + 1500) (now p + dt)); [lia |]. simpl.
    eexists. repeat split.
  - intros dt Hdt. unfold elapse, expired, pending. simpl.
    destruct (Nat.leb_spec (now p + 1500) (now p + dt)); [| lia]. simpl.
    do 2 eexists. split; [reflexivity |]. simpl.
    repeat (split; [reflexivity |]).
    split; [apply reset_values |].
    split; [| reflexivity].
    intros i f Hi. now apply nth_error_reset.
Qed.

Lemma submit_valid_form_witness :
  exists p1 m1 p2,
    handleFormSubmit
      (mkPage [mkField true "text" "Asha" "" (Some 0);
               mkField true "email" "asha@site.example" "" (Some 1);
               mkField false "tel" "" "" None]
              (fun _ => "") (Some (mkRegion "" [] None None None 0)) [] 0)
    = (Ok tt, p1)
    /\ formMessage p1 = Some m1
    /\ textContent m1 = "Sending your message..."
    /\ elapse 1500 p1 = ([], p2)
    /\ map value (fields p2) = [""; ""; ""].
Proof.
  destruct (@submit_valid_form
    (mkPage [mkField true "text" "Asha" "" (Some 0);
             mkField true "email" "asha@site.example" "" (Some 1);
             mkField false "tel" "" "" None]
            (fun _ => "") (Some (mkRegion "" [] None None None 0)) [] 0)
    (mkRegion "" [] None None None 0)
    eq_refl eq_refl eq_refl)
    as (p1 & m1 & H1 & H2 & H3 & _ & _ & _ & _ & _ & Hdone).
  destruct (Hdone 1500 (le_n 1500))
    as (p2 & m2 & E & _ & _ & _ & _ & Hvalues & _).
  exists p1, m1, p2. auto.
Defined.

(** C2. When a required field is rejected (an empty one, for example),
    [handleFormSubmit] returns at once: it shows "Please correct the
    errors in the form." with class [error] in the message region,
    arms no timer, lets no time pass and leaves every field as it is;
    with no earlier submission under way, nothing changes afterwards
    either. *)
Theorem submit_invalid_form (p : Page) :
  Exists (fun f => required f = true /\ verdict f = false) (fields p) ->
  exists p1,
    handleFormSubmit p = (Ok tt, p1)
    /\ (forall m, formMessage p = Some m ->
        exists m1, formMessage p1 = Some m1
          /\ textContent m1 = "Please correct the errors in the form."
          /\ className m1 = ["form-message"; "error"])
    /\ fields p1 = fields p
    /\ timers p1 = timers p
    /\ now p1 = now p
    /\ (timers p = [] -> forall dt,
        exists p', elapse dt p1 = ([], p')
          /\ formMessage p' = formMessage p1 /\ fields p' = fields p).
Proof.
  intro Hex.
  assert (Hv : forallb verdict (filter required (fields p)) = false).
  { apply not_true_is_false. intro Hall.
    rewrite forallb_forall in Hall.
    apply Exists_exists in Hex as (f & Hin & Hreq & Hf).
    rewrite Hall in Hf; [discriminate |].
    apply filter_In. auto. }
  destruct (handleFormSubmit_rejected p Hv) as [text ->].
  unfold showFormMessage, set_formMessage. simpl.
  destruct (formMessage p) as [m |] eqn:Hm; simpl.
  - eexists. split; [reflexivity |]. simpl. split.
    + intros m0 _. eexists. repeat split.
    + repeat (split; [reflexivity |]).
      intros Ht dt. unfold elapse. simpl. rewrite Ht. simpl.
      eexists. repeat split.
  - eexists. split; [reflexivity |]. simpl. split.
    + intros m0 Hm0. discriminate.
    + repeat (split; [reflexivity |]).
      intros Ht dt. unfold elapse. simpl. rewrite Ht. simpl.
      eexists. repeat split.
Qed.

Lemma submit_invalid_form_witness :
  exists p1,
    handleFormSubmit
      (mkPage [mkField true "text" "Asha" "" (Some 0);
               mkField true "email" "" "" (Some 1)]
              (fun _ => "") (Some (mkRegion "" [] None None None 0)) [] 0)
    = (Ok tt, p1)
    /\ timers p1 = [].
Proof.
  destruct (@submit_invalid_form
    (mkPage [mkField true "text" "Asha" "" (Some 0);
             mkField true "email" "" "" (Some 1)]
            (fun _ => "") (Some (mkRegion "" [] None None None 0)) [] 0))
    as (p1 & H1 & _ & _ & H4 & _).
  - right. left. split; reflexivity.
  - exists p1. auto.
Defined.

(** C4, at its failing input. A page with no message region and a form
    whose only required field is filled in: the submission is accepted,
    and 1500 ms later the callback resets the form and then throws a
    [TypeError] on [formMessage.scrollIntoView]. *)
Theorem submit_without_region_throws :
  exists p1 p2,
    handleFormSubmit
      (mkPage [mkField true "text" "Asha" "" None] (fun _ => "") None [] 0)
    = (Ok tt, p1)
    /\ elapse 1500 p1 =
       ([TypeError "Cannot read properties of null (reading 'scrollIntoView')"],
        p2)
    /\ fields p2 = [mkField true "text" "" "" None].
Proof. do 2 eexists. repeat split. Qed.

End SubmissionClaims.

(** ** The FAQ accordion *)

Section AccordionFacts.
Import Faq.

Lemma closeOther_coherent (pane : Pane) :
  coherent pane = true ->
  coherent (closeOther pane) = true /\ expanded (closeOther pane) = false.
Proof.
  destruct pane as [q a [h |] s]; unfold coherent, closeOther, expanded;
    destruct q, a; simpl; auto; discriminate.
Qed.

Lemma toggle_coherent (pane : Pane) :
  coherent pane = true ->
  coherent (toggle pane) = true
  /\ expanded (toggle pane) = negb (expanded pane).
Proof.
  destruct pane as [q a [h |] s]; unfold coherent, toggle, expanded;
    destruct q, a; simpl; rewrite ?Nat.eqb_refl; auto; discriminate.
Qed.

Lemma closeOther_all (panes : list Pane) :
  forallb coherent panes = true ->
  forallb coherent (map closeOther panes) = true
  /\ count_expanded (map closeOther panes) = 0.
Proof.
  unfold count_expanded.
  induction panes as [| pane rest IH]; simpl; [auto |].
  intro H. apply andb_true_iff in H as [Hp Hr].
  destruct (closeOther_coherent pane Hp) as [-> ->].
  destruct (IH Hr) as [-> ->]. auto.
Qed.

(** After a click the panes agree with themselves again and at most the
    clicked one is expanded. *)
Lemma click_well_formed (panes : list Pane) :
  forall k, forallb coherent panes = true -> well_formed (click k panes).
Proof.
  unfold well_formed, count_expanded.
  induction panes as [| pane rest IH]; intros k H; simpl;
    [split; [reflexivity | lia] |].
  apply andb_true_iff in H as [Hp Hr].
  destruct k as [| k]; simpl.
  - destruct (toggle_coherent pane Hp) as [-> _].
    destruct (closeOther_all rest Hr) as [-> Hc].
    unfold count_expanded in Hc.
    destruct (expanded (toggle pane)); simpl; rewrite Hc; auto.
  - destruct (closeOther_coherent pane Hp) as [-> ->].
    destruct (IH k Hr) as [-> Hc]. auto.
Qed.

Lemma clicks_well_formed (ks : list nat) :
  forall panes, well_formed panes -> well_formed (clicks ks panes).
Proof.
  unfold clicks.
  induction ks as [| k ks IH]; intros panes H; simpl; [assumption |].
  apply IH, click_well_formed, H.
Qed.

Lemma nth_error_click_same (panes : list Pane) :
  forall k pane,
    nth_error panes k = Some pane ->
    nth_error (click k panes) k = Some (toggle pane).
Proof.
  induction panes as [| p rest IH]; intros [| k] pane H; simpl in *;
    try discriminate.
  - now injection H as ->.
  - now apply IH.
Qed.

Lemma nth_error_click_other (panes : list Pane) :
  forall k a pane,
    a <> k ->
    nth_error panes a = Some pane ->
    nth_error (click k panes) a = Some (closeOther pane).
Proof.
  induction panes as [| p rest IH]; intros [| k] [| a] pane Hne H;
    simpl in *; try discriminate; try congruence.
  - now apply map_nth_error.
  - apply IH; [congruence | assumption].
Qed.

Lemma expanded_unique (panes : list Pane) :
  forall a b pa pb,
    count_expanded panes <= 1 ->
    nth_error panes a = Some pa -> expanded pa = true ->
    nth_error panes b = Some pb -> expanded pb = true ->
    a = b.
Proof.
  unfold count_expanded.
  induction panes as [| p rest IH]; intros a b pa pb Hc Ha Ea Hb Eb.
  - destruct a; discriminate.
  - simpl in Hc.
    assert (Hin : forall i x, nth_error rest i = Some x -> expanded x = true ->
                              1 <= List.length (filter expanded rest)).
    { intros i x Hx Ex. apply nth_error_In in Hx.
      assert (In x (filter expanded rest)) by (apply filter_In; auto).
      destruct (filter expanded rest); [contradiction | simpl; lia]. }
    destruct a as [| a], b as [| b]; simpl in *; auto.
    + injection Ha as ->. rewrite Ea in Hc. simpl in Hc.
      specialize (Hin b pb Hb Eb). lia.
    + injection Hb as ->. rewrite Eb in Hc. simpl in Hc.
      specialize (Hin a pa Ha Ea). lia.
    + f_equal. apply (IH a b pa pb); auto.
      destruct (expanded p); simpl in Hc; lia.
Qed.

End AccordionFacts.

Section AccordionClaims.
Import Faq.

(** C7. From a page whose panes are coherent with at most one expanded
    (the page as loaded, all collapsed, is one), every sequence of
    clicks leaves at most one answer expanded; a click on question [b]
    while pane [a] is expanded collapses [a] and expands [b] to its
    natural height; a click on the question of an expanded pane
    collapses it. *)
Theorem accordion_at_most_one (panes : list Pane) :
  well_formed panes ->
  (forall ks, count_expanded (clicks ks panes) <= 1)
  /\ (forall a b pa pb,
       a <> b ->
       nth_error panes a = Some pa -> expanded pa = true ->
       nth_error panes b = Some pb ->
       exists pa' pb',
         nth_error (click b panes) a = Some pa'
         /\ expanded pa' = false /\ maxHeight pa' = None
         /\ nth_error (click b panes) b = Some pb'
         /\ expanded pb' = true
         /\ maxHeight pb' = Some (scrollHeight pb))
  /\ (forall a pa,
       nth_error panes a = Some pa -> expanded pa = true ->
       exists pa',
         nth_error (click a panes) a = Some pa'
         /\ expanded pa' = false /\ maxHeight pa' = None).
Proof.
  intros [Hcoh Hone].
  assert (Hpane : forall i x, nth_error panes i = Some x -> coherent x = true).
  { intros i x Hx. rewrite forallb_forall in Hcoh.
    apply Hcoh. eapply nth_error_In, Hx. }
  split; [| split].
  - intro ks. apply clicks_well_formed. split; assumption.
  - intros a b pa pb Hne Ha Ea Hb.
    assert (Eb : expanded pb = false).
    { destruct (expanded pb) eqn:E; [| reflexivity].
      exfalso. apply Hne.
      eapply expanded_unique; eauto. }
    exists (closeOther pa), (toggle pb).
    erewrite nth_error_click_other by eauto.
    erewrite nth_error_click_same by eauto.
    pose proof (Hpane _ _ Ha) as Ca. pose proof (Hpane _ _ Hb) as Cb.
    destruct pa as [qa aa ha sa], pb as [qb ab hb sb].
    unfold expanded, coherent, closeOther, toggle in *. simpl in *.
    subst aa ab. destruct qa, qb; simpl in *; try discriminate.
    repeat split.
  - intros a pa Ha Ea.
    exists (toggle pa). erewrite nth_error_click_same by eauto.
    destruct pa as [qa aa ha sa].
    unfold expanded, toggle in *. simpl in *. subst aa.
    repeat split.
Qed.

Lemma accordion_at_most_one_witness :
  count_expanded
    (clicks [0; 2; 2; 1]
       [mkPane false false None 120; mkPane true true (Some 80) 80;
        mkPane false false None 64]) <= 1.
Proof.
  apply (@accordion_at_most_one
           [mkPane false false None 120; mkPane true true (Some 80) 80;
            mkPane false false None 64]).
  split; [reflexivity | apply le_n].
Defined.

End AccordionClaims.

(** ** The project filter *)

Section FilterFacts.
Import Timers Filter.

Lemma In_setTimeout (A : Type) (t x : timer A) (q : list (timer A)) :
  In x (setTimeout t q) <-> x = t \/ In x q.
Proof.
  induction q as [| u q IH]; simpl.
  - intuition congruence.
  - destruct (due u <=? due t)%nat; simpl; rewrite ?IH; intuition congruence.
Qed.

Lemma filter_setTimeout_out (A : Type) (P : timer A -> bool)
    (t : timer A) (q : list (timer A)) :
  P t = false -> filter P (setTimeout t q) = filter P q.
Proof.
  intro Ht. induction q as [| u q IH]; simpl.
  - now rewrite Ht.
  - destruct (due u <=? due t)%nat; simpl.
    + now rewrite IH.
    + now rewrite Ht.
Qed.

Lemma filter_setTimeout_first (A : Type) (P : timer A -> bool)
    (t : timer A) (q : list (timer A)) :
  P t = true -> filter P q = [] -> filter P (setTimeout t q) = [t].
Proof.
  intro Ht. induction q as [| u q IH]; simpl.
  - now rewrite Ht.
  - destruct (P u) eqn:Hu; [discriminate |]. intro Hq.
    destruct (due u <=? due t)%nat; simpl.
    + rewrite Hu. auto.
    + now rewrite Ht, Hu, Hq.
Qed.

Lemma expired_all (A : Type) (later : nat) (q : list (timer A)) :
  (forall t, In t q -> due t <= later) ->
  expired later q = q /\ pending later q = [].
Proof.
  unfold expired, pending. induction q as [| u q IH]; simpl; intro H.
  - auto.
  - assert (Hu : (due u <=? later)%nat = true) by (apply Nat.leb_le; auto).
    rewrite Hu. simpl. destruct IH as [-> ->]; auto.
Qed.

Lemma nth_error_update (f : Item -> Item) (items : list Item) :
  forall i j,
    nth_error (update i f items) j =
    if (i =? j)%nat then option_map f (nth_error items j)
    else nth_error items j.
Proof.
  induction items as [| item rest IH]; intros [| i] [| j]; simpl; auto.
  now destruct (i =? j)%nat.
Qed.

Lemma nth_error_fire (c : callback) (items : list Item) (i : nat) :
  nth_error (fire c items) i =
  if (target c =? i)%nat then option_map (effect c) (nth_error items i)
  else nth_error items i.
Proof. destruct c; simpl; apply nth_error_update. Qed.

(** Callbacks touch the item they hold and no other. *)
Lemma nth_error_fireAll (q : list (timer callback)) :
  forall items i,
    nth_error (fireAll q items) i =
    option_map
      (fun item => fold_left (fun it t => effect (run t) it) (on_item i q) item)
      (nth_error items i).
Proof.
  unfold fireAll, on_item.
  induction q as [| t q IH]; intros items i; simpl.
  - now destruct (nth_error items i).
  - rewrite IH, nth_error_fire.
    destruct (target (run t) =? i)%nat; simpl; [| reflexivity].
    now destruct (nth_error items i).
Qed.

Lemma on_item_none (i0 : nat) (q : list (timer callback)) :
  (forall t, In t q -> target (run t) < i0) -> on_item i0 q = [].
Proof.
  unfold on_item. induction q as [| u q IH]; simpl; intro H;
    [reflexivity |].
  destruct (Nat.eqb_spec (target (run u)) i0) as [Hu | Hu].
  - specialize (H u (or_introl eq_refl)). lia.
  - apply IH. intros t Ht. apply H. now right.
Qed.

Lemma forEachItem_spec (filterValue : string) (now : nat)
    (items : list Item) :
  forall i0 q items' q',
    forEachItem filterValue now i0 items q = (items', q') ->
    (forall t, In t q -> target (run t) < i0 /\ due t <= now + 300) ->
    items' = map (marked filterValue) items
    /\ (forall j item, nth_error items j = Some item ->
          on_item (i0 + j) q' = [armed filterValue now (i0 + j) item])
    /\ (forall i, i < i0 -> on_item i q' = on_item i q)
    /\ (forall t, In t q' -> due t <= now + 300).
Proof.
  induction items as [| item rest IH]; intros i0 q items' q' E Hq; simpl in E.
  - injection E as <- <-. repeat split; auto.
    + intros [| j] item H; discriminate.
    + intros t Ht. now apply Hq.
  - set (t0 := armed filterValue now i0 item).
    assert (Et0 : target (run t0) = i0 /\ due t0 <= now + 300).
    { unfold t0, armed. destruct (selected filterValue item); simpl; lia. }
    assert (E' : exists rest',
               forEachItem filterValue now (S i0) rest (setTimeout t0 q)
               = (rest', q')
               /\ items' = marked filterValue item :: rest').
    { unfold t0, armed, marked.
      destruct (selected filterValue item);
        destruct (forEachItem filterValue now (S i0) rest _) as [r' q''];
        injection E as <- <-; eauto. }
    destruct E' as (rest' & E' & ->).
    destruct (IH (S i0) (setTimeout t0 q) rest' q' E') as (H1 & H2 & H3 & H4).
    { intros t Ht. apply In_setTimeout in Ht as [-> | Ht].
      - lia.
      - destruct (Hq t Ht). lia. }
    subst rest'. split; [reflexivity |]. split; [| split].
    + intros [| j] it Hj; simpl in Hj.
      * injection Hj as ->. rewrite Nat.add_0_r.
        rewrite H3 by lia. unfold on_item.
        apply filter_setTimeout_first.
        -- apply Nat.eqb_eq. apply Et0.
        -- apply on_item_none. intros t Ht. now apply Hq.
      * replace (i0 + S j) with (S i0 + j) by lia. now apply H2.
    + intros i Hi. rewrite H3 by lia. unfold on_item.
      apply filter_setTimeout_out. apply Nat.eqb_neq. lia.
    + assumption.
Qed.

Lemma includes_In (l : list string) (x : string) :
  Js.includes l x = true <-> In x l.
Proof.
  unfold Js.includes. rewrite existsb_exists. split.
  - intros (y & Hy & E). apply String.eqb_eq in E. now subst.
  - intro H. exists x. split; [assumption | apply String.eqb_refl].
Qed.

Lemma selected_iff (filterValue : string) (item : Item) :
  selected filterValue item = true <->
  filterValue = "all"
  \/ In filterValue (Js.split_space (data_category item)).
Proof.
  unfold selected. rewrite orb_true_iff, String.eqb_eq, includes_In.
  reflexivity.
Qed.

(** [split(' ')] cuts at every space and loses nothing: the pieces hold
    no space, and joined by spaces they give the string back. *)
Lemma split_space_pieces (s : string) :
  Forall (fun piece => forallb (fun c => negb (Ascii.eqb c " "))
                               (Js.chars piece) = true)
         (Js.split_space s)
  /\ String.concat " " (Js.split_space s) = s.
Proof.
  induction s as [| c s [IHf IHc]]; simpl.
  - split; [repeat constructor | reflexivity].
  - destruct (Ascii.eqb_spec c " ") as [-> | Hc].
    + split; [constructor; [reflexivity | assumption] |].
      simpl. destruct (Js.split_space s) as [| piece rest] eqn:E.
      * simpl in IHc. now subst.
      * now rewrite IHc.
    + destruct (Js.split_space s) as [| piece rest] eqn:E.
      * simpl in IHc. subst. split; [| reflexivity].
        repeat constructor. simpl.
        apply Ascii.eqb_neq in Hc. now rewrite Hc.
      * inversion IHf as [| ? ? Hp Hrest]; subst. split.
        -- constructor; [| assumption]. simpl.
           apply Ascii.eqb_neq in Hc. now rewrite Hc.
        -- simpl in *. destruct rest; simpl in *; congruence.
Qed.

Lemma split_space_spaceless (piece : string) :
  spaceless piece -> Js.split_space piece = [piece].
Proof.
  unfold spaceless. induction piece as [| c piece IH]; simpl;
    [reflexivity |].
  intro H. apply andb_true_iff in H as [Hc Hp].
  apply negb_true_iff in Hc. rewrite Hc, (IH Hp). reflexivity.
Qed.

Lemma split_space_joined (piece rest : string) :
  spaceless piece ->
  Js.split_space (piece ++ String " " rest) = piece :: Js.split_space rest.
Proof.
  unfold spaceless. induction piece as [| c piece IH]; simpl;
    [reflexivity |].
  intro H. apply andb_true_iff in H as [Hc Hp].
  apply negb_true_iff in Hc. rewrite Hc, (IH Hp). reflexivity.
Qed.

(** [split(' ')] gives back the pieces of any run of pieces without
    spaces joined by single spaces. *)
Lemma split_space_concat (pieces : list string) :
  pieces <> [] ->
  Forall spaceless pieces ->
  Js.split_space (String.concat " " pieces) = pieces.
Proof.
  induction pieces as [| piece rest IH]; intros Hne Hall; [congruence |].
  inversion Hall as [| ? ? Hp Hrest]; subst.
  destruct rest as [| next rest].
  - simpl. now apply split_space_spaceless.
  - change (String.concat " " (piece :: next :: rest))
      with (piece ++ String " " (String.concat " " (next :: rest)))%string.
    rewrite (split_space_joined _ Hp), IH; [reflexivity | discriminate | exact Hrest].
Qed.

(** The test of the listener against the category set as the
    specification words it. *)
Lemma selected_iff_category_set (filterValue : string) (item : Item) :
  selected filterValue item = true <->
  filterValue = "all"
  \/ category_set_contains (data_category item) filterValue.
Proof.
  rewrite selected_iff. split; (intros [H | H]; [now left | right]).
  - exists (Js.split_space (data_category item)).
    destruct (split_space_pieces (data_category item)) as [Hall Hcat].
    repeat split; assumption.
  - destruct H as (pieces & Hcat & Hall & Hin).
    rewrite <- Hcat, split_space_concat; [exact Hin | | exact Hall].
    intro E. subst pieces. contradiction.
Qed.

End FilterFacts.

Section FilterClaims.
Import Timers Filter.

(** C9, as amended. With no timer of an earlier click pending, a click
    on the button whose [data-filter] is [t], followed by the 300 ms of
    its timers, leaves every item shown (display [block], opacity 1, full
    scale) if and only if [t] is ["all"] or the space-separated category
    set of the item contains [t], and hidden (display [none], opacity 0,
    reduced scale) otherwise. *)
Theorem filter_shows_selected (p : Page) (k : nat) (this : Button) (dt : nat) :
  timers p = [] ->
  nth_error (filterButtons p) k = Some this ->
  300 <= dt ->
  forall i item,
    nth_error (projectItems p) i = Some item ->
    exists item',
      nth_error (projectItems (elapse dt (click k p))) i = Some item'
      /\ data_category item' = data_category item
      /\ (shown item' <->
          data_filter this = "all"
          \/ category_set_contains (data_category item) (data_filter this))
      /\ (hidden item' <->
          ~ (data_filter this = "all"
             \/ category_set_contains (data_category item)
                                       (data_filter this))).
Proof.
  intros Ht Hk Hdt i item Hi.
  unfold click. rewrite Hk.
  destruct (filterButtons p) as [| b0 bs] eqn:Eb;
    [destruct k; discriminate |].
  destruct (projectItems p) as [| it0 its] eqn:Ei;
    [destruct i; discriminate |].
  rewrite Ht.
  destruct (forEachItem (data_filter this) (now p) 0 (it0 :: its) [])
    as [items' q'] eqn:E.
  destruct (@forEachItem_spec _ _ _ _ _ _ _ E) as (H1 & H2 & _ & H4);
    [intros t [] |].
  unfold elapse. cbn [projectItems timers now filterButtons].
  destruct (@expired_all _ (now p + dt) q') as [-> _].
  { intros t Hin. specialize (H4 t Hin). lia. }
  rewrite nth_error_fireAll.
  specialize (H2 i item Hi). simpl in H2. rewrite H2.
  subst items'. erewrite map_nth_error by exact Hi. simpl.
  eexists. split; [reflexivity |].
  rewrite <- selected_iff_category_set.
  unfold armed, marked, shown, hidden.
  destruct (selected (data_filter this) item); simpl.
  - split; [reflexivity |]. split.
    + split; auto.
    + split; [intros (H & _); discriminate | intro H; now elim H].
  - split; [reflexivity |]. split.
    + split; [intros (H & _); discriminate | discriminate].
    + split; auto.
Qed.

Lemma filter_shows_selected_witness :
  exists item',
    nth_error
      (projectItems
         (elapse 300
            (click 1
               (mkPage [mkButton "all" true; mkButton "villa" false]
                       [mkItem "residential villa" None None None;
                        mkItem "commercial" None None None]
                       [] 0))))
      0 = Some item'
    /\ shown item'.
Proof.
  destruct (@filter_shows_selected
    (mkPage [mkButton "all" true; mkButton "villa" false]
            [mkItem "residential villa" None None None;
             mkItem "commercial" None None None]
            [] 0)
    1 (mkButton "villa" false) 300 eq_refl eq_refl (le_n 300)
    0 (mkItem "residential villa" None None None) eq_refl)
    as (item' & H1 & _ & H3 & _).
  exists item'. split; [exact H1 |].
  apply H3. right. exists ["residential"; "villa"].
  split; [reflexivity |]. split.
  - repeat constructor.
  - right. left. reflexivity.
Defined.

(** C9 as stated fails: the listener cancels no timer. A click on
    "villa", 100 ms, then a click on "all": the second item is not of
    the first filter, so its removal is due at 300 ms; the filter "all"
    selects it, and once the timers have run it has display [none]. *)
Lemma filter_after_quick_click_counterexample :
  nth_error
    (filterButtons
       (elapse 100
          (click 1
             (mkPage [mkButton "all" true; mkButton "villa" false]
                     [mkItem "residential villa" None None None;
                      mkItem "commercial" None None None]
                     [] 0))))
    0 = Some (mkButton "all" false)
  /\ nth_error
       (projectItems
          (elapse 400
             (click 0
                (elapse 100
                   (click 1
                      (mkPage [mkButton "all" true; mkButton "villa" false]
                              [mkItem "residential villa" None None None;
                               mkItem "commercial" None None None]
                              [] 0))))))
       1 = Some (mkItem "commercial" (Some "none") (Some "1") (Some "scale(1)"))
  /\ ~ shown (mkItem "commercial" (Some "none") (Some "1") (Some "scale(1)")).
Proof.
  split; [reflexivity |]. split; [reflexivity |].
  intros [H _]. discriminate.
Qed.

End FilterClaims.

(** ** The scroll reveal *)

Section ScrollFacts.
Import Scroll.

Lemma reveal_keeps_revealed (height : Z) (element : Element) :
  revealed element -> revealed (reveal height element).
Proof.
  unfold reveal. destruct (Qlt_bool _ _); [reflexivity | auto].
Qed.

Lemma moved_keeps_revealed (dy : Q) (element : Element) :
  revealed element -> revealed (moved dy element).
Proof. auto. Qed.

Lemma handleScrollAnimations_keeps (w : Window) (i : nat) (element : Element) :
  nth_error (animatedElements w) i = Some element ->
  revealed element ->
  exists element',
    nth_error (animatedElements (handleScrollAnimations w)) i = Some element'
    /\ revealed element'.
Proof.
  intros Hi Hr. exists (reveal (innerHeight w) element). split.
  - simpl. now apply map_nth_error.
  - now apply reveal_keeps_revealed.
Qed.

(** No event hides an element that is revealed. *)
Lemma step_keeps_revealed (w : Window) (e : event) (i : nat)
    (element : Element) :
  nth_error (animatedElements w) i = Some element ->
  revealed element ->
  exists element',
    nth_error (animatedElements (step w e)) i = Some element'
    /\ revealed element'.
Proof.
  intros Hi Hr. destruct e as [dy | dt]; simpl.
  - destruct (listening w).
    + apply handleScrollAnimations_keeps with (element := moved dy element).
      * simpl. now apply map_nth_error.
      * now apply moved_keeps_revealed.
    + exists (moved dy element). split.
      * simpl. now apply map_nth_error.
      * now apply moved_keeps_revealed.
  - destruct (scrollTimeout w) as [due |]; [| simpl; eauto].
    destruct (due <=? now w + dt)%nat; [| simpl; eauto].
    destruct (@handleScrollAnimations_keeps
                (mkWindow (innerWidth w) (innerHeight w) (animatedElements w)
                          (listening w) None (now w)) i element Hi Hr)
      as (element' & H1 & H2).
    exists element'. split; assumption.
Qed.

(** What the guard of [initScrollAnimations] does cover: on a narrow
    viewport loading the page reveals nothing and adds no listener. *)
Lemma narrow_load_untouched (width height : Z) (elements : list Element) :
  (width <= 768)%Z ->
  animatedElements (load width height elements) = elements
  /\ listening (load width height elements) = false.
Proof.
  intro H. unfold load, initScrollAnimations. simpl.
  destruct (Z.ltb_spec 768 width); [lia | auto].
Qed.

End ScrollFacts.

Section ScrollClaims.
Import Scroll.

(** C10. An element that is revealed stays revealed through every
    sequence of scrolls and delays: the reveal writes opacity 1 and a
    null offset, and nothing else. *)
Theorem reveal_is_monotonic (es : list event) :
  forall (w : Window) (i : nat) (element : Element),
    nth_error (animatedElements w) i = Some element ->
    revealed element ->
    exists element',
      nth_error (animatedElements (run w es)) i = Some element'
      /\ revealed element'.
Proof.
  unfold run.
  induction es as [| e es IH]; intros w i element Hi Hr; simpl.
  - eauto.
  - destruct (step_keeps_revealed w e i Hi Hr) as (element' & Hi' & Hr').
    apply (IH (step w e) i element' Hi' Hr').
Qed.

Lemma reveal_is_monotonic_witness :
  exists element',
    nth_error
      (animatedElements
         (run (load 1280 720
                    [mkElement (inject_Z 200) None None;
                     mkElement (inject_Z 900) None None])
              [Scrolled (inject_Z (-400)); Elapsed 100;
               Scrolled (inject_Z 50); Elapsed 30]))
      0 = Some element'
    /\ revealed element'.
Proof.
  apply (@reveal_is_monotonic
           [Scrolled (inject_Z (-400)); Elapsed 100;
            Scrolled (inject_Z 50); Elapsed 30]
           (load 1280 720
                 [mkElement (inject_Z 200) None None;
                  mkElement (inject_Z 900) None None])
           0
           (mkElement (inject_Z 200) (Some "1") (Some "translateY(0)"))).
  - reflexivity.
  - reflexivity.
Defined.

(** C5, at its failing input. A viewport 375 wide and 667 high with one
    tracked element 100 below its top: loading the page leaves the
    element as it was, and one scroll followed by 100 ms reveals it,
    through the debounced listener that the script adds whatever the
    width. *)
Theorem narrow_viewport_still_reveals :
  listening (load 375 667 [mkElement (inject_Z 100) None None]) = false
  /\ map style
       (animatedElements (load 375 667 [mkElement (inject_Z 100) None None]))
     = [(None, None)]
  /\ map style
       (animatedElements
          (run (load 375 667 [mkElement (inject_Z 100) None None])
               [Scrolled (inject_Z 20); Elapsed 100]))
     = [(Some "1", Some "translateY(0)")].
Proof. repeat split. Qed.

End ScrollClaims.

(* ================================================================== *)
(** * Part III: further properties of the script *)
(* ================================================================== *)

Unset Implicit Arguments.

(** ** Trimming *)

Section TrimFacts.

Lemma chars_str (l : list ascii) : Js.chars (Js.str l) = l.
Proof. apply list_ascii_of_string_of_list_ascii. Qed.

Lemma str_chars (s : string) : Js.str (Js.chars s) = s.
Proof. apply string_of_list_ascii_of_string. Qed.

Lemma trimStart_spaces (l : list ascii) :
  Js.trimStart l = [] <-> forallb Js.is_space l = true.
Proof.
  induction l as [| c l IH]; simpl; [tauto |].
  destruct (Js.is_space c); simpl; [exact IH |].
  split; discriminate.
Qed.

Lemma trimStart_keeps (l : list ascii) (c : ascii) (r : list ascii) :
  Js.is_space c = false ->
  Js.trimStart (l ++ c :: r) = Js.trimStart l ++ c :: r.
Proof.
  intro Hc. induction l as [| a l IH]; simpl.
  - now rewrite Hc.
  - destruct (Js.is_space a); [exact IH | reflexivity].
Qed.

Lemma trimStart_head (l : list ascii) :
  Js.trimStart l = []
  \/ exists c r, Js.trimStart l = c :: r /\ Js.is_space c = false.
Proof.
  induction l as [| a l IH]; simpl; [now left |].
  destruct (Js.is_space a) eqn:E; [exact IH | right; eauto].
Qed.

Lemma trimStart_fixed (c : ascii) (r : list ascii) :
  Js.is_space c = false -> Js.trimStart (c :: r) = c :: r.
Proof. intro H. simpl. now rewrite H. Qed.

Lemma trimStart_idem (l : list ascii) :
  Js.trimStart (Js.trimStart l) = Js.trimStart l.
Proof.
  destruct (trimStart_head l) as [-> | (c & r & -> & Hc)];
    [reflexivity | now apply trimStart_fixed].
Qed.

Lemma trimEnd_cons (c : ascii) (r : list ascii) :
  Js.is_space c = false -> Js.trimEnd (c :: r) = c :: Js.trimEnd r.
Proof.
  intro Hc. unfold Js.trimEnd. simpl.
  rewrite trimStart_keeps by exact Hc. rewrite rev_app_distr. reflexivity.
Qed.

Lemma trimEnd_idem (l : list ascii) :
  Js.trimEnd (Js.trimEnd l) = Js.trimEnd l.
Proof.
  unfold Js.trimEnd. now rewrite rev_involutive, trimStart_idem.
Qed.

(** The two ends of a trimmed string are trimmed. *)
Lemma trimmed_fixed (l : list ascii) :
  Js.trimEnd (Js.trimStart (Js.trimEnd (Js.trimStart l)))
  = Js.trimEnd (Js.trimStart l).
Proof.
  destruct (trimStart_head l) as [-> | (c & r & -> & Hc)]; [reflexivity |].
  rewrite trimEnd_cons by exact Hc. rewrite trimStart_fixed by exact Hc.
  rewrite <- trimEnd_cons by exact Hc. apply trimEnd_idem.
Qed.

Lemma trim_idem (s : string) : Js.trim (Js.trim s) = Js.trim s.
Proof.
  unfold Js.trim. rewrite chars_str, trimmed_fixed. reflexivity.
Qed.

(** Trimming leaves nothing exactly when the string is white space. *)
Lemma trim_empty (s : string) :
  Js.trim s = "" <-> forallb Js.is_space (Js.chars s) = true.
Proof.
  unfold Js.trim. rewrite <- trimStart_spaces. split.
  - intro H. apply (f_equal Js.chars) in H. rewrite chars_str in H.
    simpl in H.
    destruct (trimStart_head (Js.chars s)) as [E | (c & r & E & Hc)];
      [exact E |].
    rewrite E in H. rewrite trimEnd_cons in H by exact Hc. discriminate.
  - intros ->. reflexivity.
Qed.

End TrimFacts.

(** ** More on field validation *)

Section ValidationExtras.
Import Regex Form.

Ltac split_validateField field :=
  unfold validateField, set_errorText, bind, ret; simpl;
  destruct (required field); simpl;
  destruct (Js.trim (value field) =? "")%string; simpl;
  destruct (type field =? "email")%string; simpl;
  try destruct (test emailRegex (Js.trim (value field))); simpl;
  try destruct (type field =? "tel")%string; simpl;
  try destruct (test phoneRegex (Js.trim (value field))); simpl;
  destruct (errorElement field); simpl.

(** X1. White space around a value never changes the answer of
    [validateField]: the field with its value trimmed gets the answer of
    the field as typed. *)
Theorem verdict_ignores_surrounding_space (field : Field) :
  verdict (mkField (required field) (type field) (Js.trim (value field))
                   (defaultValue field) (errorElement field))
  = verdict field.
Proof.
  rewrite !verdict_eq. simpl. rewrite trim_idem. reflexivity.
Qed.

(** X2. A required field, of any type, is answered with "This field is
    required" exactly when its value is made of white space only (the
    empty value included). *)
Theorem required_message_iff_blank (field : Field) (p : Page) (e : nat) :
  required field = true ->
  errorElement field = Some e ->
  (errorText (snd (validateField field p)) e = "This field is required"
   <-> forallb Js.is_space (Js.chars (value field)) = true).
Proof.
  intros Hreq He.
  rewrite <- trim_empty.
  rewrite (validateField_message field p He) by (now rewrite Hreq).
  rewrite verdict_eq. simpl. rewrite Hreq. simpl.
  destruct (String.eqb_spec (Js.trim (value field)) "") as [E | E].
  - tauto.
  - destruct (type field =? "email")%string; simpl;
      [destruct (test emailRegex _) |
       destruct (type field =? "tel")%string; simpl;
       [destruct (test phoneRegex _) |]];
      split; try discriminate; intro; contradiction.
Qed.

Lemma required_message_iff_blank_witness :
  errorText
    (snd (validateField (mkField true "email" "   " "" (Some 2)) blank)) 2
  = "This field is required".
Proof.
  apply (required_message_iff_blank
           (mkField true "email" "   " "" (Some 2)) blank 2 eq_refl eq_refl).
  reflexivity.
Defined.

(** X3. [validateField] never throws and writes nothing but the text of
    the error element of its field: the values of the fields, the
    message region, the timers and the text of every other error element
    are as before. *)
Theorem validateField_frame (field : Field) (p : Page) :
  exists b p',
    validateField field p = (Ok b, p')
    /\ fields p' = fields p
    /\ formMessage p' = formMessage p
    /\ timers p' = timers p
    /\ now p' = now p
    /\ forall k, errorElement field <> Some k ->
                 errorText p' k = errorText p k.
Proof.
  destruct p as [fs et fm ts n].
  split_validateField field; do 2 eexists;
    (split; [reflexivity |]); simpl; repeat (split; [reflexivity |]);
    intros k Hk; try reflexivity;
    destruct (Nat.eqb_spec k n0); congruence.
Qed.

(** X4. Validating a field a second time changes nothing: the answer is
    the same and every error element reads as after the first time. *)
Theorem validateField_idempotent (field : Field) (p : Page) :
  fst (validateField field (snd (validateField field p)))
  = fst (validateField field p)
  /\ forall k,
       errorText (snd (validateField field (snd (validateField field p)))) k
       = errorText (snd (validateField field p)) k.
Proof.
  destruct p as [fs et fm ts n].
  split_validateField field; split; try reflexivity; intro k;
    try reflexivity; destruct (k =? n0)%nat; reflexivity.
Qed.

Lemma validateAll_last (l : list Field) (g : Field) (e : nat) :
  required g = true ->
  errorElement g = Some e ->
  verdict g = true ->
  forall (isValid : bool) (p : Page),
  exists text,
    validateAll (l ++ [g]) isValid p =
    (Ok (isValid && forallb verdict l),
     mkPage (fields p) text (formMessage p) (timers p) (now p))
    /\ text e = "".
Proof.
  intros Hreq He Hg.
  induction l as [| field rest IH]; intros isValid p; simpl.
  - unfold bind, ret.
    pose proof (validateField_message g p He) as Hmsg.
    rewrite Hreq, Hg in Hmsg. specialize (Hmsg eq_refl).
    destruct (validateField_verdict g p) as [text Hv].
    rewrite Hv in Hmsg. simpl in Hmsg. rewrite Hv, Hg. simpl.
    exists text. rewrite andb_true_r. auto.
  - unfold bind.
    destruct (validateField_verdict field p) as [text ->].
    destruct (IH (if negb (verdict field) then false else isValid)
                 (mkPage (fields p) text (formMessage p) (timers p) (now p)))
      as (text' & -> & Ht).
    exists text'. simpl. split; [| exact Ht].
    destruct (verdict field), isValid; reflexivity.
Qed.

(** X5. Fields that share one error element overwrite each other's
    message, in document order: when the last required field of the form
    is valid and has an error element, [handleFormSubmit] leaves that
    element empty, whatever the required fields before it, so a form can
    be refused with no message beside the field at fault. *)
Theorem shared_error_element_last_wins (p : Page) (l : list Field)
    (g : Field) (e : nat) :
  filter required (fields p) = l ++ [g] ->
  errorElement g = Some e ->
  verdict g = true ->
  errorText (snd (handleFormSubmit p)) e = ""
  /\ (forallb verdict l = false ->
      timers (snd (handleFormSubmit p)) = timers p).
Proof.
  intros Hl He Hg.
  assert (Hreq : required g = true).
  { assert (Hin : In g (filter required (fields p)))
      by (rewrite Hl; apply in_or_app; right; now left).
    apply filter_In in Hin. tauto. }
  unfold handleFormSubmit, bind. rewrite Hl.
  destruct (validateAll_last l g e Hreq He Hg true p) as (text & -> & Ht).
  simpl.
  destruct (forallb verdict l); simpl;
    unfold showFormMessage, set_formMessage, arm; simpl;
    destruct (formMessage p); simpl; split; auto; discriminate.
Qed.

Lemma shared_error_element_last_wins_witness :
  errorText
    (snd (handleFormSubmit
            (mkPage [mkField true "email" "abc" "" (Some 0);
                     mkField true "tel" "98765 43210" "" (Some 0)]
                    (fun _ => "") (Some (mkRegion "" [] None None None 0))
                    [] 0)))
    0 = ""
  /\ verdict (mkField true "email" "abc" "" (Some 0)) = false.
Proof.
  split; [| reflexivity].
  apply (shared_error_element_last_wins
           (mkPage [mkField true "email" "abc" "" (Some 0);
                    mkField true "tel" "98765 43210" "" (Some 0)]
                   (fun _ => "") (Some (mkRegion "" [] None None None 0))
                   [] 0)
           [mkField true "email" "abc" "" (Some 0)]
           (mkField true "tel" "98765 43210" "" (Some 0)) 0
           eq_refl eq_refl eq_refl).
Defined.

End ValidationExtras.

(** ** More on the submission *)

Section RegionInvariant.
Import Timers Form Session.

(** A property of the message region that depends on its inline style
    only and that the style of an [info] message has. *)
Variable R : Region -> Prop.
Hypothesis R_style :
  forall m text cls n,
    R m -> R (mkRegion text cls (backgroundColor m) (color m) (border m) n).
Hypothesis R_info :
  forall text cls n,
    R (mkRegion text cls (Some "rgba(33, 33, 33, 0.1)") (Some "#212121")
                (Some "1px solid #212121") n).

Lemma showFormMessage_keeps (message ty : string) (p : Page) (m : Region) :
  formMessage p = Some m -> R m ->
  exists m',
    showFormMessage message ty p =
    (Ok tt, mkPage (fields p) (errorText p) (Some m') (timers p) (now p))
    /\ R m'.
Proof.
  intros Hm HR. unfold showFormMessage, set_formMessage. rewrite Hm. simpl.
  destruct (ty =? "success")%string; [eexists; split; [reflexivity |];
                                        now apply R_style |].
  destruct (ty =? "error")%string; [eexists; split; [reflexivity |];
                                      now apply R_style |].
  destruct (ty =? "info")%string; eexists; (split; [reflexivity |]).
  - apply R_info.
  - now apply R_style.
Qed.

Lemma handleFormSubmit_keeps (p : Page) (m : Region) :
  formMessage p = Some m -> R m ->
  exists p' m',
    handleFormSubmit p = (Ok tt, p') /\ formMessage p' = Some m' /\ R m'.
Proof.
  intros Hm HR.
  destruct (forallb verdict (filter required (fields p))) eqn:Hv.
  - destruct (handleFormSubmit_accepted p Hv) as [text ->].
    unfold bind.
    destruct (showFormMessage_keeps "Sending your message..." "info"
                (mkPage (fields p) text (formMessage p) (timers p) (now p)) m
                Hm HR) as (m' & -> & HR').
    unfold arm. simpl.
    do 2 eexists. split; [reflexivity |]. simpl. split; [reflexivity | assumption].
  - destruct (handleFormSubmit_rejected p Hv) as [text ->].
    destruct (showFormMessage_keeps
                "Please correct the errors in the form." "error"
                (mkPage (fields p) text (formMessage p) (timers p) (now p)) m
                Hm HR) as (m' & -> & HR').
    do 2 eexists. split; [reflexivity |]. simpl. split; [reflexivity | assumption].
Qed.

Lemma fire_keeps (c : callback) (p : Page) (m : Region) :
  formMessage p = Some m -> R m ->
  exists p' m', fire c p = (Ok tt, p') /\ formMessage p' = Some m' /\ R m'.
Proof.
  intros Hm HR. destruct c. unfold fire, bind.
  destruct (showFormMessage_keeps
              "Thank you for your message! We will respond to your inquiry within 24 hours."
              "success" p m Hm HR) as (m' & -> & HR').
  unfold reset, scrollIntoView, set_formMessage. simpl.
  do 2 eexists. split; [reflexivity |]. simpl. split; [reflexivity |].
  now apply R_style.
Qed.

Lemma fireAll_keeps (q : list (timer callback)) :
  forall (p : Page) (m : Region),
    formMessage p = Some m -> R m ->
    exists p' m', fireAll q p = ([], p') /\ formMessage p' = Some m' /\ R m'.
Proof.
  induction q as [| t q IH]; intros p m Hm HR; simpl.
  - eauto.
  - destruct (fire_keeps (Timers.run t)
                (mkPage (fields p) (errorText p) (formMessage p) (timers p)
                        (Nat.max (now p) (due t))) m Hm HR)
      as (p' & m' & -> & Hm' & HR').
    apply (IH p' m' Hm' HR').
Qed.

Lemma elapse_keeps (dt : nat) (p : Page) (m : Region) :
  formMessage p = Some m -> R m ->
  exists p' m', elapse dt p = ([], p') /\ formMessage p' = Some m' /\ R m'.
Proof.
  intros Hm HR. unfold elapse.
  destruct (fireAll_keeps (expired (now p + dt) (timers p))
              (mkPage (fields p) (errorText p) (formMessage p)
                      (pending (now p + dt) (timers p)) (now p)) m Hm HR)
    as (p' & m' & -> & Hm' & HR').
  simpl. eauto.
Qed.

Lemma on_input_keeps (i : nat) (v : string) (p : Page) (m : Region) :
  formMessage p = Some m -> R m ->
  exists p', on_input i v p = (Ok tt, p') /\ formMessage p' = Some m.
Proof.
  intros Hm HR. unfold on_input. simpl.
  destruct (nth_error (set_value i v (fields p)) i) as [field |];
    [| simpl; eauto].
  unfold bind.
  destruct (validateField_verdict field
              (mkPage (set_value i v (fields p)) (errorText p) (formMessage p)
                      (timers p) (now p))) as [text ->].
  unfold ret. simpl. eauto.
Qed.

Lemma run_keeps (es : list event) :
  forall (p : Page) (m : Region),
    formMessage p = Some m -> R m ->
    exists p' m',
      fold_left step es ([], p) = ([], p')
      /\ formMessage p' = Some m' /\ R m'.
Proof.
  induction es as [| e es IH]; intros p m Hm HR; simpl.
  - eauto.
  - destruct e as [i v | | dt].
    + destruct (on_input_keeps i v p m Hm HR) as (p' & -> & Hm').
      apply (IH p' m Hm' HR).
    + destruct (handleFormSubmit_keeps p m Hm HR) as (p' & m' & -> & Hm' & HR').
      apply (IH p' m' Hm' HR').
    + destruct (elapse_keeps dt p m Hm HR) as (p' & m' & -> & Hm' & HR').
      simpl. apply (IH p' m' Hm' HR').
Qed.

End RegionInvariant.

Section SubmissionExtras.
Import Timers Form Session.

(** X6. On a page that has the message region, no input, submission or
    delay, in any order and number, makes a listener or a timer callback
    throw. *)
Theorem no_exception_with_region (p : Page) (m : Region) (es : list event) :
  formMessage p = Some m ->
  fst (Session.run p es) = [].
Proof.
  intro Hm. unfold Session.run.
  destruct (run_keeps (fun _ => True) (fun _ _ _ _ _ => I)
              (fun _ _ _ => I) es p m Hm I)
    as (p' & m' & -> & _).
  reflexivity.
Qed.

Lemma no_exception_with_region_witness :
  fst (Session.run
         (mkPage [mkField true "text" "" "" (Some 0)] (fun _ => "")
                 (Some (mkRegion "" [] None None None 0)) [] 0)
         [Submit; Input 0 "Asha"; Submit; Submit; Elapse 1500; Elapse 10])
  = [].
Proof.
  apply (no_exception_with_region
           (mkPage [mkField true "text" "" "" (Some 0)] (fun _ => "")
                   (Some (mkRegion "" [] None None None 0)) [] 0)
           (mkRegion "" [] None None None 0)
           [Submit; Input 0 "Asha"; Submit; Submit; Elapse 1500; Elapse 10]).
  reflexivity.
Defined.

(** X7. [showFormMessage] sets the inline style of an [info] message and
    never removes it: once a submission has been accepted, the region
    keeps the background, colour and border of "Sending your message..."
    under every later message, the thank-you and the error included. *)
Theorem info_style_is_never_removed (p : Page) (m : Region)
    (es : list event) :
  formMessage p = Some m ->
  forallb verdict (filter required (fields p)) = true ->
  exists m',
    formMessage (snd (Session.run p (Submit :: es))) = Some m'
    /\ info_style m'.
Proof.
  intros Hm Hv. unfold Session.run. simpl.
  destruct (handleFormSubmit_accepted p Hv) as [text ->].
  unfold bind, showFormMessage, set_formMessage, arm. simpl.
  rewrite Hm. simpl.
  assert (Hstyle : forall r text' cls n,
             info_style r ->
             info_style (mkRegion text' cls (backgroundColor r) (color r)
                                  (border r) n))
    by (intros r text' cls n H; exact H).
  assert (Hinfo : forall text' cls n,
             info_style (mkRegion text' cls (Some "rgba(33, 33, 33, 0.1)")
                                  (Some "#212121") (Some "1px solid #212121") n))
    by (intros; repeat split).
  match goal with
  | |- context [fold_left step es ([], ?q)] =>
      destruct (run_keeps info_style Hstyle Hinfo es q
                  (mkRegion "Sending your message..." ["form-message"]
                     (Some "rgba(33, 33, 33, 0.1)") (Some "#212121")
                     (Some "1px solid #212121") (scrolledIntoView m))
                  eq_refl (Hinfo _ _ _))
        as (p' & m' & -> & Hm' & HR')
  end.
  exists m'. auto.
Qed.

Lemma info_style_is_never_removed_witness :
  exists m',
    formMessage
      (snd (Session.run
              (mkPage [mkField true "text" "Asha" "" (Some 0)] (fun _ => "")
                      (Some (mkRegion "" [] None None None 0)) [] 0)
              [Submit; Elapse 1500; Input 0 ""; Submit]))
    = Some m'
    /\ info_style m'.
Proof.
  apply (info_style_is_never_removed
           (mkPage [mkField true "text" "Asha" "" (Some 0)] (fun _ => "")
                   (Some (mkRegion "" [] None None None 0)) [] 0)
           (mkRegion "" [] None None None 0)
           [Elapse 1500; Input 0 ""; Submit]).
  - reflexivity.
  - reflexivity.
Defined.

End SubmissionExtras.

Section OverlappingSubmissions.
Import Timers Form.

(** X8. A submission that is under way is never cancelled: when the
    visitor submits again and a required field is now refused, the error
    message is shown, and when the first timer comes due the thank-you
    message replaces it and the form is reset all the same. *)
Theorem refused_submission_keeps_pending_one (p : Page) (m : Region)
    (T dt : nat) :
  formMessage p = Some m ->
  timers p = [Timer T SubmitDone] ->
  forallb verdict (filter required (fields p)) = false ->
  T <= now p + dt ->
  exists p1 m1 p2 m2,
    handleFormSubmit p = (Ok tt, p1)
    /\ formMessage p1 = Some m1
    /\ textContent m1 = "Please correct the errors in the form."
    /\ elapse dt p1 = ([], p2)
    /\ formMessage p2 = Some m2
    /\ textContent m2 =
       "Thank you for your message! We will respond to your inquiry within 24 hours."
    /\ className m2 = ["form-message"; "success"]
    /\ fields p2 = map reset_field (fields p)
    /\ timers p2 = []
    /\ map value (fields p2) = map defaultValue (fields p).
Proof.
  intros Hm Ht Hv HT.
  destruct (handleFormSubmit_rejected p Hv) as [text ->].
  unfold showFormMessage, set_formMessage. simpl. rewrite Hm, Ht.
  do 4 eexists. split; [reflexivity |]. simpl.
  do 2 (split; [reflexivity |]).
  unfold elapse, expired, pending. simpl.
  destruct (Nat.leb_spec T (now p + dt)); [| lia]. simpl.
  split; [reflexivity |]. simpl.
  repeat (split; [reflexivity |]).
  apply reset_values.
Qed.

Lemma refused_submission_keeps_pending_one_witness :
  exists p1 p2 m2,
    handleFormSubmit
      (mkPage [mkField true "text" "" "" None] (fun _ => "")
              (Some (mkRegion "Sending your message..." ["form-message"]
                              None None None 0))
              [Timer 1500 SubmitDone] 400)
    = (Ok tt, p1)
    /\ elapse 1100 p1 = ([], p2)
    /\ formMessage p2 = Some m2
    /\ className m2 = ["form-message"; "success"].
Proof.
  destruct (refused_submission_keeps_pending_one
              (mkPage [mkField true "text" "" "" None] (fun _ => "")
                      (Some (mkRegion "Sending your message..."
                                      ["form-message"] None None None 0))
                      [Timer 1500 SubmitDone] 400)
              (mkRegion "Sending your message..." ["form-message"]
                        None None None 0)
              1500 1100 eq_refl eq_refl eq_refl (le_n 1500))
    as (p1 & m1 & p2 & m2 & H1 & _ & _ & H2 & H3 & _ & H4 & _).
  exists p1, p2, m2. auto.
Defined.

(** X9. A second submission is not held back while the first is under
    way: submitting a valid form twice, [d] ms apart with [d < 1500],
    leaves two timers pending, and once both are due the form has been
    reset and the region scrolled into view twice, with nothing thrown. *)
Theorem double_submission_runs_twice (p : Page) (m : Region) (d dt : nat) :
  formMessage p = Some m ->
  timers p = [] ->
  forallb verdict (filter required (fields p)) = true ->
  d < 1500 ->
  1500 <= dt ->
  exists p1 p2 p3 p4 m4,
    handleFormSubmit p = (Ok tt, p1)
    /\ elapse d p1 = ([], p2)
    /\ handleFormSubmit p2 = (Ok tt, p3)
    /\ timers p3 = [Timer (now p + 1500) SubmitDone;
                    Timer (now p + d + 1500) SubmitDone]
    /\ elapse dt p3 = ([], p4)
    /\ formMessage p4 = Some m4
    /\ scrolledIntoView m4 = S (S (scrolledIntoView m))
    /\ fields p4 = map reset_field (fields p)
    /\ timers p4 = []
    /\ map value (fields p4) = map defaultValue (fields p).
Proof.
  intros Hm Ht Hv Hd Hdt.
  set (m1 := mkRegion "Sending your message..." ["form-message"]
               (Some "rgba(33, 33, 33, 0.1)") (Some "#212121")
               (Some "1px solid #212121") (scrolledIntoView m)).
  destruct (handleFormSubmit_accepted p Hv) as [text E1].
  set (q1 := [Timer (now p + 1500) SubmitDone]).
  assert (H1 : handleFormSubmit p
               = (Ok tt, mkPage (fields p) text (Some m1) q1 (now p))).
  { rewrite E1. unfold bind, showFormMessage, set_formMessage, arm. simpl.
    rewrite Hm, Ht. reflexivity. }
  assert (H2 : elapse d (mkPage (fields p) text (Some m1) q1 (now p))
               = ([], mkPage (fields p) text (Some m1) q1 (now p + d))).
  { unfold elapse, expired, pending, q1. simpl.
    destruct (Nat.leb_spec (now p + 1500) (now p + d)); [lia |].
    reflexivity. }
  destruct (handleFormSubmit_accepted
              (mkPage (fields p) text (Some m1) q1 (now p + d)) Hv)
    as [text' E3].
  set (q3 := [Timer (now p + 1500) SubmitDone;
              Timer (now p + d + 1500) SubmitDone]).
  assert (H3 : handleFormSubmit
                 (mkPage (fields p) text (Some m1) q1 (now p + d))
               = (Ok tt, mkPage (fields p) text' (Some m1) q3 (now p + d))).
  { rewrite E3. unfold bind, showFormMessage, set_formMessage, arm, q1. simpl.
    destruct (Nat.leb_spec (now p + 1500) (now p + d + 1500)); [| lia].
    reflexivity. }
  do 5 eexists.
  split; [exact H1 |]. split; [exact H2 |]. split; [exact H3 |].
  split; [reflexivity |].
  unfold elapse, expired, pending, q3. simpl.
  destruct (Nat.leb_spec (now p + 1500) (now p + d + dt)); [| lia].
  destruct (Nat.leb_spec (now p + d + 1500) (now p + d + dt)); [| lia].
  simpl. split; [reflexivity |]. simpl.
  repeat (split; [reflexivity |]).
  split; [rewrite map_map; apply map_ext; intros []; reflexivity |].
  split; [reflexivity |].
  rewrite reset_values, map_map. apply map_ext. intros []; reflexivity.
Qed.

Lemma double_submission_runs_twice_witness :
  exists p1 p2 p3,
    handleFormSubmit
      (mkPage [mkField true "text" "Asha" "" None] (fun _ => "")
              (Some (mkRegion "" [] None None None 0)) [] 0)
    = (Ok tt, p1)
    /\ elapse 200 p1 = ([], p2)
    /\ handleFormSubmit p2 = (Ok tt, p3)
    /\ timers p3 = [Timer 1500 SubmitDone; Timer 1700 SubmitDone].
Proof.
  destruct (double_submission_runs_twice
              (mkPage [mkField true "text" "Asha" "" None] (fun _ => "")
                      (Some (mkRegion "" [] None None None 0)) [] 0)
              (mkRegion "" [] None None None 0) 200 1500
              eq_refl eq_refl eq_refl)
    as (p1 & p2 & p3 & p4 & m4 & H1 & H2 & H3 & H4 & _).
  - repeat constructor.
  - apply le_n.
  - exists p1, p2, p3. auto.
Defined.

End OverlappingSubmissions.

(** ** More on the project filter *)

Section FilterExtras.
Import Timers Filter.

Lemma nth_error_activate (buttons : list Button) :
  forall k j,
    nth_error (activate k buttons) j =
    option_map (fun btn => mkButton (data_filter btn) (j =? k)%nat)
               (nth_error buttons j).
Proof.
  induction buttons as [| btn rest IH]; intros k j; simpl.
  - now destruct j.
  - destruct k as [| k], j as [| j]; simpl; try reflexivity.
    + rewrite nth_error_map. reflexivity.
    + apply IH.
Qed.

Lemma click_buttons (p : Page) (k : nat) (this : Button) :
  nth_error (filterButtons p) k = Some this ->
  projectItems p <> [] ->
  filterButtons (click k p) = activate k (filterButtons p).
Proof.
  intros Hk Hi. unfold click. rewrite Hk.
  destruct (filterButtons p) as [| b0 bs]; [destruct k; discriminate |].
  destruct (projectItems p) as [| it0 its]; [congruence |].
  destruct (forEachItem _ _ _ _ _). reflexivity.
Qed.

(** X10. After a click on a filter button of a page that has items, the
    clicked button is the one and only button with class [active],
    whatever was active before, and every button keeps its
    [data-filter]. *)
Theorem click_activates_one_button (p : Page) (k : nat) (this : Button) :
  nth_error (filterButtons p) k = Some this ->
  projectItems p <> [] ->
  List.length (filterButtons (click k p)) = List.length (filterButtons p)
  /\ forall j btn,
       nth_error (filterButtons (click k p)) j = Some btn ->
       (active btn = true <-> j = k)
       /\ option_map data_filter (nth_error (filterButtons p) j)
          = Some (data_filter btn).
Proof.
  intros Hk Hi. rewrite (click_buttons p k this Hk Hi). split.
  - clear Hk. revert k.
    induction (filterButtons p) as [| b bs IH]; intro k; [reflexivity |].
    destruct k; simpl.
    + now rewrite length_map.
    + now rewrite IH.
  - intros j btn Hj. rewrite nth_error_activate in Hj.
    destruct (nth_error (filterButtons p) j) as [b |]; [| discriminate].
    simpl in Hj. injection Hj as <-. simpl. split; [| reflexivity].
    apply Nat.eqb_eq.
Qed.

Lemma click_activates_one_button_witness :
  active (mkButton "villa" false) = true <-> 1 = 2.
Proof.
  apply (click_activates_one_button
           (mkPage [mkButton "all" true; mkButton "villa" true;
                    mkButton "office" false]
                   [mkItem "villa" None None None] [] 0)
           2 (mkButton "office" false) eq_refl);
    [discriminate | reflexivity].
Defined.

Lemma forEachItem_keeps_timers (filterValue : string) (now : nat)
    (items : list Item) :
  forall i0 q t,
    In t q -> In t (snd (forEachItem filterValue now i0 items q)).
Proof.
  induction items as [| item rest IH]; intros i0 q t Ht; simpl.
  - exact Ht.
  - destruct (selected filterValue item).
    + specialize (IH (S i0) (setTimeout (Timer (now + 10) (Appear i0)) q) t).
      destruct (forEachItem filterValue now (S i0) rest _) as [r q'].
      simpl in *. apply IH. apply In_setTimeout. now right.
    + specialize (IH (S i0) (setTimeout (Timer (now + 300) (Vanish i0)) q) t).
      destruct (forEachItem filterValue now (S i0) rest _) as [r q'].
      simpl in *. apply IH. apply In_setTimeout. now right.
Qed.

Lemma forEachItem_items (filterValue : string) (now : nat)
    (items : list Item) :
  forall i0 q,
    fst (forEachItem filterValue now i0 items q)
    = map (marked filterValue) items.
Proof.
  induction items as [| item rest IH]; intros i0 q; simpl; [reflexivity |].
  unfold marked at 1.
  destruct (selected filterValue item).
  - specialize (IH (S i0) (setTimeout (Timer (now + 10) (Appear i0)) q)).
    destruct (forEachItem filterValue now (S i0) rest _) as [r q'].
    simpl in *. now rewrite IH.
  - specialize (IH (S i0) (setTimeout (Timer (now + 300) (Vanish i0)) q)).
    destruct (forEachItem filterValue now (S i0) rest _) as [r q'].
    simpl in *. now rewrite IH.
Qed.

(** Once a [Vanish] has run, no callback brings the item back into the
    layout. *)
Lemma vanish_is_final (l : list (timer callback)) :
  forall item,
    (display item = Some "none"
     \/ exists T i, In (Timer T (Vanish i)) l) ->
    display (fold_left (fun it t => effect (run t) it) l item) = Some "none".
Proof.
  induction l as [| t l IH]; intros item H; simpl.
  - destruct H as [H | (T & i & [])]. exact H.
  - apply IH. destruct t as [T c]. simpl.
    destruct H as [H | (T' & i & [E | Hin])].
    + left. destruct c; simpl; [exact H | reflexivity].
    + left. injection E as -> ->. reflexivity.
    + right. eauto.
Qed.

(** X11. A timer once armed always fires: when an earlier click has
    armed the removal of an item and that timer is still pending, a click
    on a filter that selects the item does not bring it back for good;
    when the old timer comes due the item gets display [none], and so
    ends out of the layout although the filter in force selects it. *)
Theorem pending_removal_hides_selected_item (p : Page) (k : nat)
    (this : Button) (i : nat) (item : Item) (T dt : nat) :
  nth_error (filterButtons p) k = Some this ->
  nth_error (projectItems p) i = Some item ->
  selected (data_filter this) item = true ->
  In (Timer T (Vanish i)) (timers p) ->
  T <= now p + dt ->
  exists item' item'',
    nth_error (projectItems (click k p)) i = Some item'
    /\ display item' = Some "block"
    /\ nth_error (projectItems (elapse dt (click k p))) i = Some item''
    /\ display item'' = Some "none".
Proof.
  intros Hk Hi Hsel Hin HT.
  unfold click. rewrite Hk.
  destruct (filterButtons p) as [| b0 bs] eqn:Eb;
    [destruct k; discriminate |].
  destruct (projectItems p) as [| it0 its] eqn:Ei;
    [destruct i; discriminate |].
  pose proof (forEachItem_items (data_filter this) (now p) (it0 :: its) 0
                (timers p)) as Hitems.
  pose proof (forEachItem_keeps_timers (data_filter this) (now p)
                (it0 :: its) 0 (timers p) _ Hin) as Hq.
  destruct (forEachItem (data_filter this) (now p) 0 (it0 :: its) (timers p))
    as [items' q'].
  cbn [fst snd] in Hitems, Hq. subst items'.
  exists (marked (data_filter this) item).
  eexists. split; [| split; [| split]].
  - cbn [projectItems]. now apply map_nth_error.
  - unfold marked. now rewrite Hsel.
  - unfold elapse. cbn [projectItems timers now filterButtons].
    rewrite nth_error_fireAll.
    rewrite (map_nth_error (marked (data_filter this)) i (it0 :: its) Hi).
    reflexivity.
  - apply vanish_is_final. right. exists T, i.
    unfold on_item, expired. apply filter_In. split.
    + apply filter_In. split; [exact Hq |].
      apply Nat.leb_le. exact HT.
    + simpl. apply Nat.eqb_refl.
Qed.

Lemma pending_removal_hides_selected_item_witness :
  exists item'',
    nth_error
      (projectItems
         (elapse 400
            (click 0
               (elapse 100
                  (click 1
                     (mkPage [mkButton "all" true; mkButton "villa" false]
                             [mkItem "villa" None None None;
                              mkItem "office" None None None]
                             [] 0))))))
      1 = Some item''
    /\ display item'' = Some "none".
Proof.
  destruct (pending_removal_hides_selected_item
              (elapse 100
                 (click 1
                    (mkPage [mkButton "all" true; mkButton "villa" false]
                            [mkItem "villa" None None None;
                             mkItem "office" None None None]
                            [] 0)))
              0 (mkButton "all" false) 1
              (mkItem "office" None (Some "0") (Some "scale(0.8)"))
              300 400 eq_refl eq_refl eq_refl)
    as (item' & item'' & _ & _ & H3 & H4).
  - simpl. left. reflexivity.
  - simpl. repeat constructor.
  - exists item''. auto.
Defined.

End FilterExtras.

(** ** More on the accordion *)

Section AccordionExtras.
Import Faq.



(** X13. The closing loop goes by the class of the question, not of the
    answer: a pane whose answer is open while its question is not marked
    is left as it is by a click on another question, and two answers are
    then open at once. *)
Theorem unmarked_open_pane_is_not_closed (panes : list Pane) (a k : nat)
    (pa pk : Pane) :
  a <> k ->
  nth_error panes a = Some pa ->
  question_active pa = false ->
  answer_active pa = true ->
  nth_error panes k = Some pk ->
  answer_active pk = false ->
  nth_error (click k panes) a = Some pa
  /\ exists pk',
       nth_error (click k panes) k = Some pk' /\ expanded pk' = true.
Proof.
  intros Hne Ha Hq Hans Hk Hkc. split.
  - erewrite nth_error_click_other by eassumption.
    unfold closeOther. now rewrite Hq.
  - exists (toggle pk). split.
    + now apply nth_error_click_same.
    + unfold toggle, expanded. now rewrite Hkc.
Qed.

Lemma unmarked_open_pane_is_not_closed_witness :
  nth_error (click 1 [mkPane false true None 90; mkPane false false None 70]) 0
  = Some (mkPane false true None 90)
  /\ exists pk',
       nth_error
         (click 1 [mkPane false true None 90; mkPane false false None 70]) 1
       = Some pk'
       /\ expanded pk' = true.
Proof.
  apply (unmarked_open_pane_is_not_closed
           [mkPane false true None 90; mkPane false false None 70]
           0 1 (mkPane false true None 90) (mkPane false false None 70));
    try reflexivity; discriminate.
Defined.

End AccordionExtras.

(** ** More on the scroll reveal *)

Section ScrollExtras.
Import Scroll.

Lemma reveal_idem (height : Z) (element : Element) :
  reveal height (reveal height element) = reveal height element.
Proof.
  unfold reveal. destruct (Qlt_bool (top element) _) eqn:E; simpl;
    rewrite E; reflexivity.
Qed.

(** X14. On a viewport wider than 768 the debounced call is redundant:
    the direct listener has already revealed what the scroll brought into
    view, and the call that follows 100 ms later changes no element. *)
Theorem debounced_call_adds_nothing_when_listening (w : Window) (dy : Q)
    (dt : nat) :
  listening w = true ->
  animatedElements (step (step w (Scrolled dy)) (Elapsed dt))
  = animatedElements (step w (Scrolled dy)).
Proof.
  intro Hl. simpl. rewrite Hl. simpl.
  destruct (now w + 100 <=? now w + dt)%nat; simpl; [| reflexivity].
  rewrite map_map. apply map_ext. intro e. apply reveal_idem.
Qed.

Lemma debounced_call_adds_nothing_when_listening_witness :
  animatedElements
    (step (step (load 1280 720 [mkElement (inject_Z 900) None None])
                (Scrolled (inject_Z 500)))
          (Elapsed 100))
  = animatedElements
      (step (load 1280 720 [mkElement (inject_Z 900) None None])
            (Scrolled (inject_Z 500))).
Proof.
  apply (debounced_call_adds_nothing_when_listening
           (load 1280 720 [mkElement (inject_Z 900) None None])
           (inject_Z 500) 100).
  reflexivity.
Defined.

Lemma burst_step (w : Window) (dy : Q) (dt : nat) :
  listening w = false ->
  dt < 100 ->
  let w' := step (step w (Scrolled dy)) (Elapsed dt) in
  listening w' = false
  /\ map style (animatedElements w') = map style (animatedElements w).
Proof.
  intros Hl Hdt. simpl. rewrite Hl. simpl.
  destruct (Nat.leb_spec (now w + 100) (now w + dt)); [lia |]. simpl.
  split; [reflexivity |].
  rewrite map_map. apply map_ext. reflexivity.
Qed.

(** X15. The debounce waits for the scrolling to stop: on a viewport of
    width 768 or less, where only the debounced listener is in place, as
    long as scroll events follow one another less than 100 ms apart no
    element changes style. *)
Theorem scrolling_burst_reveals_nothing (pairs : list (Q * nat)) :
  forall w : Window,
    listening w = false ->
    Forall (fun pair => snd pair < 100) pairs ->
    map style
      (animatedElements
         (run w (flat_map (fun pair => [Scrolled (fst pair);
                                        Elapsed (snd pair)]) pairs)))
    = map style (animatedElements w).
Proof.
  unfold run.
  induction pairs as [| [dy dt] pairs IH]; intros w Hl Hall; [reflexivity |].
  inversion Hall as [| ? ? Hdt Hrest]; subst.
  destruct (burst_step w dy dt Hl Hdt) as [Hl' Hs].
  cbn [flat_map app fold_left fst snd].
  rewrite (IH _ Hl' Hrest). exact Hs.
Qed.

Lemma scrolling_burst_reveals_nothing_witness :
  map style
    (animatedElements
       (run (load 375 667 [mkElement (inject_Z 100) None None])
            [Scrolled (inject_Z 5); Elapsed 60;
             Scrolled (inject_Z 5); Elapsed 99]))
  = [(None, None)].
Proof.
  apply (scrolling_burst_reveals_nothing
           [(inject_Z 5, 60); (inject_Z 5, 99)]
           (load 375 667 [mkElement (inject_Z 100) None None])).
  - reflexivity.
  - repeat constructor.
Defined.

End ScrollExtras.

(** ** The mobile navigation *)

Section NavExtras.
Import Nav.

Lemma run_app (p : Page) (es1 es2 : list event) :
  run p (es1 ++ es2) = run (run p es1) es2.
Proof. unfold run. apply fold_left_app. Qed.

Lemma run_present (es : list event) :
  forall p h m,
    hamburger p = Some h -> navMenu p = Some m ->
    exists h' m',
      hamburger (run p es) = Some h' /\ navMenu (run p es) = Some m'.
Proof.
  unfold run.
  induction es as [| e es IH]; intros p h m Hh Hm; simpl; [eauto |].
  assert (Hstep : exists h' m',
             hamburger (step p e) = Some h' /\ navMenu (step p e) = Some m').
  { unfold step. rewrite Hh, Hm. destruct e; simpl; eauto. }
  destruct Hstep as (h' & m' & H1 & H2).
  apply (IH (step p e) h' m' H1 H2).
Qed.

Lemma run_toggles (n : nat) :
  forall b,
    run (mkPage (Some b) (Some b)) (repeat HamburgerClick n)
    = mkPage (Some (xorb b (Nat.odd n))) (Some (xorb b (Nat.odd n))).
Proof.
  unfold run.
  induction n as [| n IH]; intro b.
  - simpl. now rewrite xorb_false_r.
  - cbn [repeat fold_left].
    change (step (mkPage (Some b) (Some b)) HamburgerClick)
      with (mkPage (Some (negb b)) (Some (negb b))).
    rewrite IH, Nat.odd_succ, <- Nat.negb_odd.
    destruct b, (Nat.odd n); reflexivity.
Qed.

(** X16. On a page that has the hamburger and the menu, a click on a
    navigation link closes the menu whatever came before, and after [n]
    further clicks on the hamburger the menu is open exactly when [n] is
    odd, the hamburger carrying the same class as the menu. *)
Theorem menu_open_iff_odd_clicks_since_link (p : Page) (h m : bool)
    (es : list event) (n : nat) :
  hamburger p = Some h ->
  navMenu p = Some m ->
  run p (es ++ LinkClick :: repeat HamburgerClick n)
  = mkPage (Some (Nat.odd n)) (Some (Nat.odd n)).
Proof.
  intros Hh Hm.
  rewrite run_app.
  destruct (run_present es p h m Hh Hm) as (h' & m' & Hh' & Hm').
  change (LinkClick :: repeat HamburgerClick n)
    with ([LinkClick] ++ repeat HamburgerClick n).
  rewrite run_app.
  assert (E : run (run p es) [LinkClick] = mkPage (Some false) (Some false)).
  { unfold run at 1. simpl. unfold step. now rewrite Hh', Hm'. }
  rewrite E, run_toggles. reflexivity.
Qed.

Lemma menu_open_iff_odd_clicks_since_link_witness :
  run (mkPage (Some true) (Some false))
      ([HamburgerClick; HamburgerClick] ++ LinkClick :: repeat HamburgerClick 3)
  = mkPage (Some true) (Some true).
Proof.
  apply (menu_open_iff_odd_clicks_since_link
           (mkPage (Some true) (Some false)) true false
           [HamburgerClick; HamburgerClick] 3 eq_refl eq_refl).
Defined.

(** X17. The hamburger and the menu are toggled and closed together:
    when they carry the same class to begin with they carry the same
    class after every sequence of clicks, and when one of them is missing
    no click changes anything. *)
Theorem hamburger_and_menu_agree (es : list event) :
  forall p : Page,
    (hamburger p = navMenu p -> hamburger (run p es) = navMenu (run p es))
    /\ (hamburger p = None \/ navMenu p = None -> run p es = p).
Proof.
  unfold run.
  induction es as [| e es IH]; intro p; simpl; [auto |].
  split.
  - intro H. apply IH. unfold step.
    destruct (hamburger p) as [h |] eqn:Eh, (navMenu p) as [m |] eqn:Em;
      try discriminate.
    + injection H as ->. destruct e; reflexivity.
    + congruence.
  - intro H.
    assert (E : step p e = p).
    { unfold step. destruct H as [-> | H]; [reflexivity |].
      rewrite H. now destruct (hamburger p). }
    rewrite E. now apply IH.
Qed.

Lemma hamburger_and_menu_agree_witness :
  hamburger (run (mkPage (Some false) (Some false))
                 [HamburgerClick; LinkClick; HamburgerClick])
  = navMenu (run (mkPage (Some false) (Some false))
                 [HamburgerClick; LinkClick; HamburgerClick]).
Proof.
  apply (hamburger_and_menu_agree
           [HamburgerClick; LinkClick; HamburgerClick]
           (mkPage (Some false) (Some false))).
  reflexivity.
Defined.

End NavExtras.

(** ** The highlighted menu entry *)

Section MenuExtras.
Import Menu.

Lemma split_nonempty (sep : ascii) (s : string) : split sep s <> [].
Proof.
  destruct s as [| c s]; simpl; [discriminate |].
  destruct (Ascii.eqb c sep); [discriminate |].
  destruct (split sep s); discriminate.
Qed.

Lemma split_no_separator (sep : ascii) (s : string) :
  holds sep s = false -> split sep s = [s].
Proof.
  unfold holds. induction s as [| c s IH]; simpl; [reflexivity |].
  intro H. apply orb_false_iff in H as [Hc Hs].
  rewrite Ascii.eqb_sym, Hc, (IH Hs). reflexivity.
Qed.

Lemma split_append (sep : ascii) (a b : string) :
  split sep (a ++ String sep b) = split sep a ++ split sep b.
Proof.
  induction a as [| c a IH]; simpl.
  - now rewrite Ascii.eqb_refl.
  - rewrite IH. destruct (Ascii.eqb c sep); [reflexivity |].
    pose proof (split_nonempty sep a) as Hne.
    destruct (split sep a); [congruence | reflexivity].
Qed.

Lemma pieces_hold_no_separator (sep : ascii) (s : string) :
  Forall (fun piece => holds sep piece = false) (split sep s).
Proof.
  unfold holds. induction s as [| c s IH]; simpl.
  - repeat constructor.
  - destruct (Ascii.eqb_spec c sep) as [-> | Hc].
    + constructor; [reflexivity | exact IH].
    + destruct (split sep s) as [| piece rest]; [repeat constructor |].
      * simpl. apply Ascii.eqb_neq in Hc.
        now rewrite Ascii.eqb_sym, Hc.
      * inversion IH as [| ? ? Hp Hrest]; subst.
        constructor; [| exact Hrest]. simpl.
        apply Ascii.eqb_neq in Hc. now rewrite Ascii.eqb_sym, Hc, Hp.
Qed.

(** What [split('/').pop()] answers holds no slash. *)
Lemma pop_holds_no_separator (sep : ascii) (s : string) :
  holds sep (pop (split sep s)) = false.
Proof.
  pose proof (pieces_hold_no_separator sep s) as H.
  pose proof (split_nonempty sep s) as Hne.
  rewrite Forall_forall in H. apply H.
  unfold pop. destruct (exists_last Hne) as (l & x & ->).
  rewrite last_last. apply in_or_app. right. now left.
Qed.

(** The file name after the last slash of a path. *)
Lemma pop_file_name (dir file : string) :
  holds "/" file = false ->
  pop (split "/" (dir ++ String "/" file)) = file.
Proof.
  intro H. rewrite split_append, (split_no_separator "/" file H).
  unfold pop. apply last_last.
Qed.

Lemma nth_error_highlight (pathname : string) (navLinks : list Link)
    (j : nat) (link : Link) :
  nth_error (highlightActiveMenu pathname navLinks) j = Some link ->
  exists old,
    nth_error navLinks j = Some old
    /\ href link = href old
    /\ active link =
       (strictEq (href old) (pop (split "/" pathname))
        || ((pop (split "/" pathname) =? "")%string
            && strictEq (href old) "index.html")
        || ((pop (split "/" pathname) =? "index.html")%string
            && strictEq (href old) "index.html")).
Proof.
  unfold highlightActiveMenu. rewrite nth_error_map.
  destruct (nth_error navLinks j) as [old |]; [| discriminate].
  simpl. intro H. injection H as <-.
  exists old. split; [reflexivity |].
  destruct (strictEq (href old) (pop (split "/" pathname))
            || _ || _); simpl; auto.
Qed.

(** X18. The entry highlighted is found by file name: with the address
    of the page ending in [/file], a link gets the class [active] exactly
    when its [href] is [file], or when [file] is empty (the address of a
    directory) and its [href] is [index.html]; what was highlighted before
    plays no part. *)
Theorem highlight_by_file_name (dir file : string) (navLinks : list Link)
    (j : nat) (link : Link) :
  holds "/" file = false ->
  nth_error (highlightActiveMenu (dir ++ String "/" file) navLinks) j
  = Some link ->
  (active link = true <->
   href link = Some file \/ (file = "" /\ href link = Some "index.html")).
Proof.
  intros Hfile Hj.
  destruct (nth_error_highlight _ _ _ _ Hj) as (old & _ & Hh & ->).
  rewrite (pop_file_name dir file Hfile), Hh.
  assert (Heq : forall s, strictEq (href old) s = true <-> href old = Some s).
  { intro s. unfold strictEq. destruct (href old) as [h |].
    - rewrite String.eqb_eq. split; congruence.
    - split; discriminate. }
  rewrite !orb_true_iff, !andb_true_iff, !String.eqb_eq, !Heq.
  split.
  - intros [[H | [H1 H2]] | [H1 H2]]; auto. left. congruence.
  - intros [H | [H1 H2]]; auto.
Qed.

Lemma highlight_by_file_name_witness :
  active (mkLink (Some "index.html") true) = true
  <-> href (mkLink (Some "index.html") true) = Some ""
      \/ ("" = "" /\ href (mkLink (Some "index.html") true) = Some "index.html").
Proof.
  apply (highlight_by_file_name "/nilesh" ""
           [mkLink (Some "about.html") true; mkLink (Some "index.html") false]
           1 (mkLink (Some "index.html") true)).
  - reflexivity.
  - reflexivity.
Defined.

(** X19. A link whose [href] holds a slash ([/about.html],
    [pages/about.html], a full address) is never highlighted, on any
    page: the script compares it with the piece of the address after the
    last slash. *)
Theorem href_with_slash_is_never_highlighted (pathname : string)
    (navLinks : list Link) (j : nat) (link : Link) (h : string) :
  nth_error (highlightActiveMenu pathname navLinks) j = Some link ->
  href link = Some h ->
  holds "/" h = true ->
  active link = false.
Proof.
  intros Hj Hh Hslash.
  destruct (nth_error_highlight _ _ _ _ Hj) as (old & _ & Hsame & ->).
  rewrite <- Hsame, Hh. unfold strictEq.
  assert (H1 : (h =? pop (split "/" pathname))%string = false).
  { apply String.eqb_neq. intro E.
    pose proof (pop_holds_no_separator "/" pathname) as Hp.
    rewrite <- E in Hp. congruence. }
  assert (H2 : (h =? "index.html")%string = false).
  { apply String.eqb_neq. intro E. subst h. discriminate. }
  rewrite H1, H2, !andb_false_r. reflexivity.
Qed.

Lemma href_with_slash_is_never_highlighted_witness :
  active (mkLink (Some "/about.html") false) = false.
Proof.
  apply (href_with_slash_is_never_highlighted "/about.html"
           [mkLink (Some "/about.html") true]
           0 (mkLink (Some "/about.html") false) "/about.html").
  - reflexivity.
  - reflexivity.
  - reflexivity.
Defined.

End MenuExtras.
